(** * telephone-planner: the MST engine of [src/lib/logic.ts]

    A shallow embedding of [haversineDistance] and [runPrimsAlgorithm],
    together with the candidate-edge construction of the React caller, and
    the properties the specification states about them. *)

From Stdlib Require Import ZArith List Lia Floats.
From stdpp Require Import gmap list.
From Equations Require Import Equations.
From Equations.Prop Require Import Logic.
Import ListNotations.

Local Open Scope Z_scope.

(** ** Data model *)

(** Doubles are the kernel's binary64 numbers; two doubles are equal when
    they are the same value ([Object.is], with a single NaN). *)
#[global] Instance float_eq_dec : EqDecision float.
Proof.
  intros x y. destruct (PrimFloat.Leibniz.eqb x y) eqn:E.
  - left. by apply FloatAxioms.Leibniz.eqb_spec.
  - right. intros H. apply FloatAxioms.Leibniz.eqb_spec in H. congruence.
Defined.

(** [interface Village { id; lat; lon }].  Identifiers are integers (OSM ids
    or the [Id] column of the uploaded table); coordinates are doubles. *)
Record Village := mkVillage { id : Z; lat : float; lon : float }.

(** [interface Edge { from; to; weight; distance? }]. *)
Record Edge := mkEdge {
  from : Z;
  to : Z;
  weight : float;
  distance : option float }.

#[global] Instance Edge_eq_dec : EqDecision Edge.
Proof. solve_decision. Defined.

(** The value [runPrimsAlgorithm] returns. *)
Record Result := mkResult { mst : list Edge; sequence : list Edge }.

(** The three locals the [while] loop mutates. *)
Record State := mkState {
  visited : gset Z;
  st_mst : list Edge;
  st_sequence : list Edge }.

(** ** haversineDistance

    Arithmetic on doubles is binary64 arithmetic ([-], [*], [/], [+], and
    [Math.sqrt], which engines compile to the IEEE square root).  [Math.sin],
    [Math.cos] and [Math.atan2] are implementation-approximated in
    ECMAScript: they are the fields of a parameter, and each property
    states the facts about them that it uses. *)

Record MathLibrary := mkMath {
  Math_sin : float → float;
  Math_cos : float → float;
  Math_atan2 : float → float → float }.

Section Distance.
Local Open Scope float_scope.

(** [Math.PI], the double nearest to pi. *)
Definition Math_PI : float := 0x1.921fb54442d18p+1.

(** Lines 3-13. *)
Definition haversineDistance (M : MathLibrary)
  (lat1 lon1 lat2 lon2 : float) : float :=
  let R := 6371 in
  let dLat := (lat2 - lat1) * Math_PI / 180 in
  let dLon := (lon2 - lon1) * Math_PI / 180 in
  let a :=
    Math_sin M (dLat / 2) * Math_sin M (dLat / 2) +
    Math_cos M (lat1 * Math_PI / 180) * Math_cos M (lat2 * Math_PI / 180) *
    Math_sin M (dLon / 2) * Math_sin M (dLon / 2) in
  let c := 2 * Math_atan2 M (sqrt a) (sqrt (1 - a)) in
  R * c.

(** The argument of the squared sines: half the difference of two
    coordinates, in radians. *)
Definition halfAngle (x y : float) : float :=
  (y - x) * Math_PI / 180 / 2.

End Distance.

(** ** runPrimsAlgorithm *)

(** The test of line 43: exactly one endpoint is in [visited]. *)
Definition isFrontier (vis : gset Z) (edge : Edge) : bool :=
  let fromVisited := bool_decide (from edge ∈ vis) in
  let toVisited := bool_decide (to edge ∈ vis) in
  (fromVisited && negb toVisited) || (negb fromVisited && toVisited).

(** One turn of the [for (const edge of allEdges)] loop, lines 41-47; [<] is
    the comparison of doubles. *)
Definition scanEdge (vis : gset Z) (minEdge : option Edge) (edge : Edge)
  : option Edge :=
  if isFrontier vis edge then
    match minEdge with
    | None => Some edge
    | Some m => if (weight edge <? weight m)%float then Some edge else minEdge
    end
  else minEdge.

(** Lines 39-48: [minEdge] after the scan of the whole candidate list. *)
Definition findMinEdge (vis : gset Z) (allEdges : list Edge) : option Edge :=
  fold_left (scanEdge vis) allEdges None.

(** Lines 50-52: both pushes and [visited.add]. *)
Definition acceptEdge (s : State) (minEdge : Edge) : State :=
  {| visited :=
       {[ if bool_decide (from minEdge ∈ visited s)
          then to minEdge else from minEdge ]} ∪ visited s;
     st_mst := st_mst s ++ [minEdge];
     st_sequence := st_sequence s ++ [minEdge] |}.

(** One iteration of the [while] loop: [Some s'] when the body ran to its end
    and the loop goes on from [s'], [None] when the loop is left (its
    condition is false, or the [break] of line 54). *)
Definition loopStep (villages : list Village) (allEdges : list Edge)
  (s : State) : option State :=
  if bool_decide (size (visited s) < length villages)%nat then
    match findMinEdge (visited s) allEdges with
    | Some minEdge => Some (acceptEdge s minEdge)
    | None => None
    end
  else None.

(** An edge the scan keeps is a frontier edge. *)
Lemma scan_frontier vis allEdges :
  ∀ acc e,
    (∀ m, acc = Some m → isFrontier vis m = true) →
    fold_left (scanEdge vis) allEdges acc = Some e →
    isFrontier vis e = true.
Proof.
  induction allEdges as [|x l IH]; simpl; intros acc e Hacc H.
  - by apply Hacc.
  - apply (IH (scanEdge vis acc x)); [|done]. intros m. unfold scanEdge.
    destruct (isFrontier vis x) eqn:Hx; [|by apply Hacc].
    destruct acc as [m0|]; [|congruence].
    destruct (weight x <? weight m0)%float; [congruence | by apply Hacc].
Qed.

Lemma findMinEdge_frontier vis allEdges e :
  findMinEdge vis allEdges = Some e → isFrontier vis e = true.
Proof. apply scan_frontier. discriminate. Qed.

(** The endpoint [visited.add] receives is the one not yet visited. *)
Lemma acceptEdge_size s e :
  isFrontier (visited s) e = true →
  size (visited (acceptEdge s e)) = S (size (visited s)).
Proof.
  unfold isFrontier, acceptEdge; simpl. intros H.
  rewrite size_union, size_singleton; [done|].
  do 2 case_bool_decide; simpl in H; try discriminate; set_solver.
Qed.

Lemma loopStep_size villages allEdges s s' :
  loopStep villages allEdges s = Some s' →
  (size (visited s) < length villages)%nat ∧
  size (visited s') = S (size (visited s)).
Proof.
  unfold loopStep. case_bool_decide; [|discriminate].
  destruct (findMinEdge (visited s) allEdges) as [e|] eqn:He; [|discriminate].
  intros [= <-]. split; [done|].
  by apply acceptEdge_size, (findMinEdge_frontier _ allEdges).
Qed.

(** Lines 38-56: the [while] loop, from the state [s] on.  Each pass adds one
    identifier to [visited], so [villages.length - visited.size] decreases. *)
Equations? primLoop (villages : list Village) (allEdges : list Edge)
  (s : State) : State
  by wf (length villages - size (visited s))%nat lt :=
  primLoop villages allEdges s with inspect (loopStep villages allEdges s) := {
    | exist _ (Some s') Hstep => primLoop villages allEdges s'
    | exist _ None _ => s }.
Proof. apply loopStep_size in Hstep. lia. Qed.

(** Lines 31-36: the empty arrays and [visited] holding the start only. *)
Definition initialState (start : Z) : State :=
  {| visited := {[ start ]}; st_mst := []; st_sequence := [] |}.

(** [startNodeId ?? villages[0].id]: only an absent start falls back to the
    first village. *)
Definition startingPoint (v0 : Village) (startNodeId : option Z) : Z :=
  default (id v0) startNodeId.

(** Lines 28-59. *)
Definition runPrimsAlgorithm (villages : list Village) (allEdges : list Edge)
  (startNodeId : option Z) : Result :=
  match villages with
  | [] => {| mst := []; sequence := [] |}
  | v0 :: _ =>
      let s := primLoop villages allEdges
                 (initialState (startingPoint v0 startNodeId)) in
      {| mst := st_mst s; sequence := st_sequence s |}
  end.

(** ** The caller: candidate edges and the guard of [App] *)

(** The nested loops [for i] / [for j = i + 1] that fill [allPossibleEdges]. *)
Fixpoint allPossibleEdges (M : MathLibrary) (villages : list Village)
  : list Edge :=
  match villages with
  | [] => []
  | v1 :: rest =>
      map (λ v2,
             let distance :=
               haversineDistance M (lat v1) (lon v1) (lat v2) (lon v2) in
             {| from := id v1; to := id v2;
                weight := distance; distance := Some distance |}) rest
      ++ allPossibleEdges M rest
  end.

(** [!startNodeId]: [null] and [0] are both falsy. *)
Definition falsyId (startNodeId : option Z) : bool :=
  match startNodeId with
  | None => true
  | Some i => i =? 0
  end.

(** The [useMemo] of [App]: the guard, the candidate list, the run. *)
Definition animationSequence (M : MathLibrary) (villages : list Village)
  (startNodeId : option Z) : list Edge :=
  if (length villages <? 2)%nat || falsyId startNodeId then []
  else sequence (runPrimsAlgorithm villages
                   (allPossibleEdges M villages) startNodeId).

(** ** Notions of the specification *)

(** *** Weights as numbers *)

(** A double that is neither NaN nor an infinity, read on its
    specification. *)
Definition SFfinite (x : spec_float) : bool :=
  match x with
  | S754_zero _ | S754_finite _ _ _ => true
  | _ => false
  end.

(** The value of a finite double, counted in units of 2^-1074: every finite
    double is a whole number of them. *)
Definition SFunits (x : spec_float) : Z :=
  match x with
  | S754_finite s m e => cond_Zopp s (Zpos m * 2 ^ (e + 1074))
  | _ => 0
  end.

Definition toUnits (x : float) : Z := SFunits (Prim2SF x).

(** The weight of an edge as a number, in those units. *)
Definition exactWeight (edge : Edge) : Z := toUnits (weight edge).

(** Every weight is a number: no NaN, no infinity. *)
Definition finiteWeights (allEdges : list Edge) : Prop :=
  Forall (λ edge, is_finite (weight edge) = true) allEdges.

(** The sum of the weights, accumulated left to right as [reduce] does, in
    exact arithmetic. *)
Definition totalWeight (T : list Edge) : Z :=
  fold_left (λ sum edge, sum + exactWeight edge) T 0.

(** The same sum in doubles, as [reduce((sum, edge) => sum + edge.weight, 0)]
    computes it. *)
Definition weightSum (T : list Edge) : float :=
  fold_left (λ sum edge, (sum + weight edge)%float) T 0%float.

(** A double between -1 and 1. *)
Definition SFunit (x : spec_float) : bool :=
  SFleb (Prim2SF (-1)) x && SFleb x (Prim2SF 1).

(** *** Graphs *)

Definition ids (villages : list Village) : list Z := map id villages.

(** [edge] joins the identifiers [a] and [b], in either direction. *)
Definition joins (edge : Edge) (a b : Z) : Prop :=
  (from edge = a ∧ to edge = b) ∨ (from edge = b ∧ to edge = a).

Definition adjacent (T : list Edge) (a b : Z) : Prop :=
  ∃ edge, edge ∈ T ∧ joins edge a b.

(** [a] and [b] are linked by a path of edges of [T]. *)
Definition connected (T : list Edge) : relation Z := rtc (adjacent T).

(** The candidate list is the complete graph over the points: it only
    mentions points, and joins every two distinct ones. *)
Definition complete (villages : list Village) (allEdges : list Edge) : Prop :=
  (∀ edge, edge ∈ allEdges →
     from edge ∈ ids villages ∧ to edge ∈ ids villages) ∧
  (∀ a b, a ∈ ids villages → b ∈ ids villages → a ≠ b →
     adjacent allEdges a b).

(** The weaker requirement the algorithm needs: the candidate list only
    mentions points, and links every two of them by a path. *)
Definition connectedGraph (villages : list Village) (allEdges : list Edge)
  : Prop :=
  (∀ edge, edge ∈ allEdges →
     from edge ∈ ids villages ∧ to edge ∈ ids villages) ∧
  (∀ a b, a ∈ ids villages → b ∈ ids villages → connected allEdges a b).

(** A spanning tree of the candidate graph: edges taken from the candidate
    list (each at most as often as it occurs there), linking every two
    points, [n - 1] of them.  A connected graph on [n] vertices with [n - 1]
    edges has no cycle. *)
Definition spanningTree (villages : list Village) (allEdges T : list Edge)
  : Prop :=
  T ⊆+ allEdges ∧
  Z.of_nat (length T) = Z.of_nat (length villages) - 1 ∧
  (∀ a b, a ∈ ids villages → b ∈ ids villages → connected T a b).

(** *** The order of acceptance *)

(** [visited] after the edges of [accepted] were accepted one after the
    other, replaying line 52 from the start identifier. *)
Definition visitedAfter (start : Z) (accepted : list Edge) : gset Z :=
  fold_left (λ vis edge,
      {[ if bool_decide (from edge ∈ vis) then to edge else from edge ]} ∪ vis)
    accepted {[ start ]}.

(** [edge] is the first of the lightest frontier edges of [allEdges]: it is
    a frontier edge at some position, no frontier edge is lighter, and every
    frontier edge before that position is strictly heavier. *)
Definition firstLightest (vis : gset Z) (allEdges : list Edge) (edge : Edge)
  : Prop :=
  ∃ before after,
    allEdges = before ++ edge :: after ∧
    isFrontier vis edge = true ∧
    (∀ g, g ∈ before → isFrontier vis g = true →
          exactWeight edge < exactWeight g) ∧
    (∀ g, g ∈ after → isFrontier vis g = true →
          exactWeight edge <= exactWeight g).

(** *** Loop invariants *)

(** The facts that hold of the loop state before and after each pass. *)
Record Inv (allEdges : list Edge) (start : Z) (s : State) : Prop := {
  inv_same : st_sequence s = st_mst s;
  inv_replay : visited s = visitedAfter start (st_mst s);
  inv_start : start ∈ visited s;
  inv_size : size (visited s) = S (length (st_mst s));
  inv_sub : ∀ g, g ∈ st_mst s → g ∈ allEdges;
  inv_inside : ∀ g, g ∈ st_mst s → from g ∈ visited s ∧ to g ∈ visited s;
  inv_ends : ∀ a, a ∈ visited s →
    a = start ∨ ∃ g, g ∈ st_mst s ∧ (a = from g ∨ a = to g);
  inv_nodup : NoDup (st_mst s);
  inv_conn : ∀ a, a ∈ visited s → connected (st_mst s) start a
}.

(** Each accepted edge was the first lightest frontier edge for the visited
    set its predecessors left. *)
Definition inOrder (allEdges : list Edge) (start : Z) (accepted : list Edge)
  : Prop :=
  ∀ pre g post, accepted = pre ++ g :: post →
    firstLightest (visitedAfter start pre) allEdges g.

(** [T] extends to the accepted edges at no extra weight: some list [rest]
    completes them to [n - 1] candidate edges that link all points and
    weigh no more than [T]. *)
Definition extendsTo (villages : list Village) (allEdges T : list Edge)
  (s : State) : Prop :=
  ∃ rest,
    (∀ g, g ∈ st_mst s ++ rest → g ∈ allEdges) ∧
    S (length (st_mst s ++ rest)) = length villages ∧
    (∀ a b, a ∈ ids villages → b ∈ ids villages →
       connected (st_mst s ++ rest) a b) ∧
    totalWeight (st_mst s ++ rest) <= totalWeight T.

(** *** Sample data *)

Definition emptyResult : Result := {| mst := []; sequence := [] |}.

(** Stand-ins for the three library functions, exact at the origin:
    [sin x = x], [cos x = 1], [atan2 y x = y / x]. *)
Definition smallAngle : MathLibrary :=
  {| Math_sin x := x;
     Math_cos _ := 1%float;
     Math_atan2 y x := (y / x)%float |}.

(** A point on the equator, at the given longitude. *)
Definition village (i : Z) (longitude : float) : Village :=
  {| id := i; lat := 0; lon := longitude |}.

Definition edge (a b : Z) (w : float) : Edge :=
  {| from := a; to := b; weight := w; distance := Some w |}.

Definition endpoints (T : list Edge) : list (Z * Z) :=
  map (λ g, (from g, to g)) T.

(** ** The rest of the caller *)

(** *** What [App] draws *)

(** [villages.find(v => v.id === i)]: the first village with that
    identifier, if any. *)
Definition findVillage (villages : list Village) (i : Z) : option Village :=
  find (λ v, bool_decide (id v = i)) villages.

(** [animationSequence.slice(0, animationStep)]. *)
Definition edgesToDraw (animationSequence : list Edge) (animationStep : nat)
  : list Edge :=
  take animationStep animationSequence.

(** The [positions] of the [Polyline] drawn for an edge.  [None] is the
    render that fails: reading [.lat] of [undefined] in the first [App],
    the [return null] of the second. *)
Definition polylinePositions (villages : list Village) (edge : Edge)
  : option ((float * float) * (float * float)) :=
  match findVillage villages (from edge), findVillage villages (to edge) with
  | Some fromVillage, Some toVillage =>
      Some ((lat fromVillage, lon fromVillage), (lat toVillage, lon toVillage))
  | _, _ => None
  end.

(** A number is truthy unless it is [0], [-0] or NaN. *)
Definition truthy (x : float) : bool := negb (is_nan x || is_zero x).

(** [edge.distance || fallback]. *)
Definition distanceOr (fallback : float) (edge : Edge) : float :=
  match distance edge with
  | Some d => if truthy d then d else fallback
  | None => fallback
  end.

(** [edgesToDraw.reduce((sum, edge) => sum + (edge.distance || 0), 0)], the
    total of the first [App]. *)
Definition totalLengthOrZero (edges : list Edge) : float :=
  fold_left (λ sum edge, (sum + distanceOr 0 edge)%float) edges 0%float.

(** [... sum + (edge.distance || edge.weight) ...], the total of the second
    [App]. *)
Definition totalLength (edges : list Edge) : float :=
  fold_left (λ sum edge, (sum + distanceOr (weight edge) edge)%float)
    edges 0%float.

(** *** The second [App]: a start node and up to four others *)

(** [startNode ? [startNode, ...otherNodes] : otherNodes]. *)
Definition villagesOf (startNode : option Village)
  (otherNodes : list Village) : list Village :=
  match startNode with
  | Some s => s :: otherNodes
  | None => otherNodes
  end.

(** The [useMemo] that yields [{ mstEdges, animationSequence }]. *)
Definition mstAndSequence (M : MathLibrary) (startNode : option Village)
  (otherNodes : list Village) : list Edge * list Edge :=
  let villages := villagesOf startNode otherNodes in
  match startNode with
  | Some s =>
      if (length villages <? 2)%nat then ([], [])
      else
        let r := runPrimsAlgorithm villages
                   (allPossibleEdges M villages) (Some (id s)) in
        (mst r, sequence r)
  | None => ([], [])
  end.

(** *** The order of the visits *)

(** One more accepted edge: the endpoint line 52 adds joins [visited] and
    the order of the visits. *)
Definition visitStep (seen : gset Z * list Z) (edge : Edge)
  : gset Z * list Z :=
  let added :=
    if bool_decide (from edge ∈ seen.1) then to edge else from edge in
  ({[ added ]} ∪ seen.1, seen.2 ++ [added]).

(** The identifiers in the order [visited] received them: the start, then
    the endpoint added for each accepted edge. *)
Definition visitOrder (start : Z) (accepted : list Edge) : list Z :=
  (fold_left visitStep accepted ({[ start ]}, [start])).2.

(** Every identifier an edge of [T] mentions. *)
Definition endpointSet (T : list Edge) : gset Z :=
  list_to_set (flat_map (λ g, [from g; to g]) T).

(** The identifiers [accepted] has reached from the start. *)
Definition reached (start : Z) (accepted : list Edge) : gset Z :=
  {[ start ]} ∪ endpointSet accepted.

(** Each edge of [accepted] joins an identifier reached before it to one
    that was not. *)
Definition grown (start : Z) (accepted : list Edge) : Prop :=
  ∀ pre g post, accepted = pre ++ g :: post →
    isFrontier (reached start pre) g = true.

(** *** Selecting locations *)

(** A search result, as far as the handlers read it: the coordinates come
    as text. *)
Module Location.
Record t := mk {
  osm_id : Z;
  lat : String.string;
  lon : String.string }.
End Location.

Section Selection.
Variable parseFloat : String.string → float.

(** The village a handler makes of a search result. *)
Definition newNode (location : Location.t) : Village :=
  {| id := Location.osm_id location;
     lat := parseFloat (Location.lat location);
     lon := parseFloat (Location.lon location) |}.

(** [handleSelectOtherNode] of the second [App], on [otherNodes]: past four
    nodes it alerts and leaves the list as it is. *)
Definition handleSelectOtherNode (otherNodes : list Village)
  (location : Location.t) : list Village :=
  if (4 <=? length otherNodes)%nat then otherNodes
  else otherNodes ++ [newNode location].

(** [handleSelectSearchNode] of the first [App], on [searchOtherNodes]. *)
Definition handleSelectSearchNode (searchOtherNodes : list Village)
  (loc : Location.t) : list Village :=
  if (5 <=? length searchOtherNodes)%nat then searchOtherNodes
  else searchOtherNodes ++ [newNode loc].

End Selection.

(** *** The start button of the first [App] *)

Module FirstApp.

Inductive Mode := search | csv.

#[global] Instance Mode_eq_dec : EqDecision Mode.
Proof. solve_decision. Defined.

(** The state of the component. *)
Record AppState := mkApp {
  mode : Mode;
  searchOtherNodes : list Village;
  searchStartNodeId : option Z;
  csvData : list Village;
  csvStartNodeId : option Z;
  villages : list Village;
  startNodeId : option Z;
  animationStep : nat;
  isPlaying : bool }.

(** [handleStartAlgorithm]: the state it leaves, and whether it alerted.
    The start identifiers are tested for truthiness. *)
Definition handleStartAlgorithm (st : AppState) : AppState * bool :=
  if bool_decide (mode st = csv) && (0 <? length (csvData st))%nat
     && negb (falsyId (csvStartNodeId st))
  then
    ({| mode := mode st;
        searchOtherNodes := searchOtherNodes st;
        searchStartNodeId := searchStartNodeId st;
        csvData := csvData st;
        csvStartNodeId := csvStartNodeId st;
        villages := csvData st;
        startNodeId := csvStartNodeId st;
        animationStep := 0;
        isPlaying := false |}, false)
  else if bool_decide (mode st = search)
          && (0 <? length (searchOtherNodes st))%nat
          && negb (falsyId (searchStartNodeId st))
  then
    ({| mode := mode st;
        searchOtherNodes := searchOtherNodes st;
        searchStartNodeId := searchStartNodeId st;
        csvData := csvData st;
        csvStartNodeId := csvStartNodeId st;
        villages := searchOtherNodes st;
        startNodeId := searchStartNodeId st;
        animationStep := 0;
        isPlaying := false |}, false)
  else
    ({| mode := mode st;
        searchOtherNodes := searchOtherNodes st;
        searchStartNodeId := searchStartNodeId st;
        csvData := csvData st;
        csvStartNodeId := csvStartNodeId st;
        villages := [];
        startNodeId := None;
        animationStep := 0;
        isPlaying := false |}, true).

(** [canStart], which enables the button: the start identifiers are
    compared with [null]. *)
Definition canStart (st : AppState) : bool :=
  (bool_decide (mode st = csv) && (0 <? length (csvData st))%nat
   && bool_decide (csvStartNodeId st ≠ None))
  || (bool_decide (mode st = search)
      && (0 <? length (searchOtherNodes st))%nat
      && bool_decide (searchStartNodeId st ≠ None)).

(** The start identifier of the current mode. *)
Definition selectedStart (st : AppState) : option Z :=
  match mode st with
  | csv => csvStartNodeId st
  | search => searchStartNodeId st
  end.

End FirstApp.

(** ** Binary64 arithmetic

    Facts about doubles, from the specification of their operations. *)

Section IEEE.
Local Open Scope float_scope.

Lemma Prim2SF_inj x y : Prim2SF x = Prim2SF y → x = y.
Proof.
  intros H. rewrite <- (SF2Prim_Prim2SF x), <- (SF2Prim_Prim2SF y).
  by rewrite H.
Qed.

Lemma SFopp_involutive x : SFopp (SFopp x) = x.
Proof. destruct x as [[]|[]| |[] ??]; reflexivity. Qed.

Lemma SFopp_round_aux s m e l :
  SFopp (binary_round_aux prec emax s m e l) =
  binary_round_aux prec emax (negb s) m e l.
Proof.
  unfold binary_round_aux.
  destruct (shr_fexp prec emax m e l) as [mrs' e'].
  destruct (shr_fexp prec emax _ e' loc_Exact) as [mrs'' e''].
  destruct (shr_m mrs''); [done| |done].
  by destruct (e'' <=? emax - prec)%Z.
Qed.

Lemma SFopp_round s m e :
  SFopp (binary_round prec emax s m e) = binary_round prec emax (negb s) m e.
Proof.
  unfold binary_round. destruct (shl_align _ _ _). apply SFopp_round_aux.
Qed.

Lemma SFmul_opp_l x y :
  SFmul prec emax (SFopp x) y = SFopp (SFmul prec emax x y).
Proof.
  destruct x as [sx|sx| |sx mx ex], y as [sy|sy| |sy my ey]; simpl;
    rewrite ?SFopp_round_aux; try done; by destruct sx, sy.
Qed.

Lemma SFmul_comm x y : SFmul prec emax x y = SFmul prec emax y x.
Proof.
  destruct x as [sx|sx| |sx mx ex], y as [sy|sy| |sy my ey]; simpl;
    try done; rewrite ?(xorb_comm sx sy); try done.
  by rewrite Pos.mul_comm, Z.add_comm.
Qed.

Lemma SFdiv_opp_l x y :
  SFdiv prec emax (SFopp x) y = SFopp (SFdiv prec emax x y).
Proof.
  destruct x as [sx|sx| |sx mx ex], y as [sy|sy| |sy my ey]; simpl;
    try done; try (by destruct sx, sy).
  destruct (SFdiv_core_binary _ _ _ _ _ _) as [[mz ez] lz].
  rewrite SFopp_round_aux. by destruct sx, sy.
Qed.

Lemma mul_opp_l x y : (- x) * y = - (x * y).
Proof.
  apply Prim2SF_inj. rewrite mul_spec, !opp_spec, mul_spec.
  apply SFmul_opp_l.
Qed.

Lemma mul_comm x y : x * y = y * x.
Proof. apply Prim2SF_inj. rewrite !mul_spec. apply SFmul_comm. Qed.

Lemma opp_involutive x : - - x = x.
Proof. apply Prim2SF_inj. rewrite !opp_spec. apply SFopp_involutive. Qed.

Lemma mul_opp_r x y : x * (- y) = - (x * y).
Proof. by rewrite mul_comm, mul_opp_l, mul_comm. Qed.

Lemma div_opp_l x y : (- x) / y = - (x / y).
Proof.
  apply Prim2SF_inj. rewrite div_spec, !opp_spec, div_spec.
  apply SFdiv_opp_l.
Qed.

Lemma SFopp_normalize m e :
  binary_normalize prec emax (- m)%Z e false =
    SFopp (binary_normalize prec emax m e false) ∨
  binary_normalize prec emax (- m)%Z e false =
    binary_normalize prec emax m e false.
Proof.
  destruct m as [|p|p]; simpl; [by right|left..];
    by rewrite SFopp_round.
Qed.

Lemma SFsub_swap x y :
  SFsub prec emax y x = SFopp (SFsub prec emax x y) ∨
  SFsub prec emax y x = SFsub prec emax x y.
Proof.
  destruct x as [[]|[]| |sx mx ex], y as [[]|[]| |sy my ey];
    try (by left); try (by right);
    try (left; simpl; by rewrite negb_involutive).
  simpl. rewrite (Z.min_comm ey ex).
  set (a := cond_Zopp sx _). set (b := cond_Zopp sy _).
  replace (b - a)%Z with (- (a - b))%Z by lia.
  apply SFopp_normalize.
Qed.

Lemma sub_swap x y : y - x = - (x - y) ∨ y - x = x - y.
Proof.
  destruct (SFsub_swap (Prim2SF x) (Prim2SF y)) as [H|H]; [left|right];
    apply Prim2SF_inj; rewrite ?opp_spec, !sub_spec; exact H.
Qed.

Lemma is_finite_spec x : is_finite x = SFfinite (Prim2SF x).
Proof.
  unfold is_finite, is_nan, is_infinity.
  rewrite !FloatAxioms.eqb_spec, abs_spec.
  destruct (Prim2SF x) as [?|[]| |[] m e] eqn:E; try done;
    unfold SFeqb; simpl;
    by rewrite Z.compare_refl, Pos.compare_cont_refl.
Qed.

Lemma sub_diag x : is_finite x = true → x - x = 0.
Proof.
  rewrite is_finite_spec. intros Hfin. apply Prim2SF_inj. rewrite sub_spec.
  change (Prim2SF 0) with (S754_zero false).
  destruct (Prim2SF x) as [[]|?| |sx mx ex]; try done.
  unfold SF64sub, SFsub. by rewrite Z.sub_diag.
Qed.

(** [0 + p * 0 * 0] is [+0] for finite [p], whatever the sign of [p]. *)
Lemma add_mul_zero p : is_finite p = true → 0 + p * 0 * 0 = 0.
Proof.
  rewrite is_finite_spec. intros Hfin. apply Prim2SF_inj.
  rewrite add_spec, !mul_spec.
  change (Prim2SF 0) with (S754_zero false).
  by destruct (Prim2SF p) as [[]|?| |[] mx ex].
Qed.

(** Products of values in [[-1, 1]] do not overflow. *)

Lemma digits2_pos_size p : digits2_pos p = Pos.size p.
Proof. induction p; simpl; by rewrite ?IHp. Qed.

Lemma Zdigits2_log2 n : (0 < n)%Z → Zdigits2 n = (Z.log2 n + 1)%Z.
Proof.
  destruct n as [|p|p]; [lia| |lia]. intros _. simpl.
  destruct p; simpl; rewrite ?digits2_pos_size; lia.
Qed.

Lemma Zdigits2_mono a b : (0 ≤ a ≤ b)%Z → (Zdigits2 a ≤ Zdigits2 b)%Z.
Proof.
  intros [Ha Hab]. destruct (decide (a = 0%Z)) as [->|Hne].
  - destruct b; simpl; lia.
  - rewrite !Zdigits2_log2 by lia.
    pose proof (Z.log2_le_mono a b Hab). lia.
Qed.

Lemma Zdigits2_succ a : (0 ≤ a)%Z → (Zdigits2 (a + 1) ≤ Zdigits2 a + 1)%Z.
Proof.
  intros Ha. destruct (decide (a = 0%Z)) as [->|Hne]; [simpl; lia|].
  rewrite !Zdigits2_log2 by lia.
  pose proof (Z.log2_succ_le a). unfold Z.succ in *. lia.
Qed.

Lemma shr_1_range mrs :
  (0 ≤ shr_m mrs)%Z → (0 ≤ shr_m (shr_1 mrs) ≤ shr_m mrs)%Z.
Proof. destruct mrs as [[|[p|p|]|p] r s]; simpl; lia. Qed.

Lemma iter_shr_1_range p mrs M :
  (0 ≤ shr_m mrs ≤ M)%Z → (0 ≤ shr_m (SpecFloat.iter_pos shr_1 p mrs) ≤ M)%Z.
Proof.
  revert mrs. induction p as [p IH|p IH|]; intros mrs H; simpl.
  - apply IH, IH. pose proof (shr_1_range mrs). lia.
  - by apply IH, IH.
  - pose proof (shr_1_range mrs). lia.
Qed.

(** What [shr_fexp] returns: a mantissa that did not grow, and the larger
    of the exponent it was given and the format's exponent. *)
Lemma shr_fexp_range m e l :
  (0 ≤ m)%Z →
  (0 ≤ shr_m (fst (shr_fexp prec emax m e l)) ≤ m)%Z ∧
  snd (shr_fexp prec emax m e l) =
    Z.max e (fexp prec emax (Zdigits2 m + e)).
Proof.
  intros Hm. unfold shr_fexp, shr.
  assert (shr_m (shr_record_of_loc m l) = m) as Hrec
    by (by destruct l as [|[]]).
  destruct (fexp prec emax (Zdigits2 m + e) - e)%Z as [|p|p] eqn:E; simpl.
  - rewrite Hrec. lia.
  - split; [apply iter_shr_1_range; rewrite Hrec; lia|lia].
  - rewrite Hrec. lia.
Qed.

Lemma round_nearest_even_range m l :
  (m ≤ round_nearest_even m l ≤ m + 1)%Z.
Proof.
  destruct l as [|[]]; simpl; try lia. destruct (Z.even m); lia.
Qed.

Lemma round_aux_finite s m e l :
  (0 ≤ m)%Z → (Zdigits2 m ≤ 106)%Z → (e ≤ -104)%Z →
  SFfinite (binary_round_aux prec emax s m e l) = true.
Proof.
  intros Hm Hd He. unfold binary_round_aux.
  destruct (shr_fexp_range m e l Hm) as [Hm1 He1].
  destruct (shr_fexp prec emax m e l) as [mrs' e']. simpl in Hm1, He1.
  set (m2 := round_nearest_even _ _).
  pose proof (round_nearest_even_range (shr_m mrs')
                (loc_of_shr_record mrs')) as Hm2. fold m2 in Hm2.
  assert (0 ≤ m2)%Z as Hm2pos by lia.
  destruct (shr_fexp_range m2 e' loc_Exact Hm2pos) as [Hm3 He3].
  destruct (shr_fexp prec emax m2 e' loc_Exact) as [mrs'' e''].
  simpl in Hm3, He3.
  destruct (shr_m mrs'') as [|q|q]; [done| |lia].
  assert (Zdigits2 m2 ≤ 107)%Z as Hd2.
  { pose proof (Zdigits2_mono m2 (m + 1) ltac:(lia)).
    pose proof (Zdigits2_succ m Hm). lia. }
  assert (Zdigits2 (shr_m mrs') ≤ 106)%Z.
  { pose proof (Zdigits2_mono (shr_m mrs') m ltac:(lia)). lia. }
  unfold fexp, SpecFloat.emin, prec, emax in *.
  destruct (Z.leb_spec e'' (1024 - 53)); [done|lia].
Qed.

(** A valid value in [[-1, 1]]: at most 53 digits, exponent at most -52. *)
Lemma SFunit_finite s m e :
  SpecFloat.valid_binary prec emax (S754_finite s m e) = true →
  SFunit (S754_finite s m e) = true →
  (Zdigits2 (Zpos m) ≤ 53)%Z ∧ (e ≤ -52)%Z.
Proof.
  unfold SpecFloat.valid_binary, bounded, canonical_mantissa, SFunit.
  intros [Hcanon%Z.eqb_eq _]%andb_true_iff [Hlo Hhi]%andb_true_iff.
  split.
  - simpl. unfold fexp, SpecFloat.emin, prec, emax in Hcanon. lia.
  - change (Prim2SF 1) with (S754_finite false 4503599627370496 (-52)) in Hhi.
    change (Prim2SF (-1)) with (S754_finite true 4503599627370496 (-52)) in Hlo.
    unfold SFleb, SFcompare in Hlo, Hhi. destruct s.
    + destruct (Z.compare_spec (-52) e); [lia|done|lia].
    + destruct (Z.compare_spec e (-52)); [lia|lia|done].
Qed.

Lemma SFmul_unit x y :
  SpecFloat.valid_binary prec emax x = true →
  SpecFloat.valid_binary prec emax y = true →
  SFunit x = true → SFunit y = true →
  SFfinite (SFmul prec emax x y) = true.
Proof.
  intros Vx Vy Ux Uy.
  destruct x as [sx|[]| |sx mx ex], y as [sy|[]| |sy my ey]; try done.
  destruct (SFunit_finite _ _ _ Vx Ux) as [Hdx Hex].
  destruct (SFunit_finite _ _ _ Vy Uy) as [Hdy Hey].
  apply round_aux_finite; [lia| |lia].
  rewrite Zdigits2_log2 in * by lia.
  pose proof (Z.log2_mul_above (Zpos mx) (Zpos my)). 
  rewrite Pos2Z.inj_mul. lia.
Qed.

Lemma mul_unit x y :
  (-1 <=? x) && (x <=? 1) = true → (-1 <=? y) && (y <=? 1) = true →
  is_finite (x * y) = true.
Proof.
  rewrite !leb_spec, is_finite_spec, mul_spec. intros Ux Uy.
  apply SFmul_unit; auto using Prim2SF_valid.
Qed.

Lemma mul_nan_l y : nan * y = nan.
Proof.
  apply Prim2SF_inj. rewrite mul_spec.
  change (Prim2SF nan) with S754_nan. reflexivity.
Qed.

Lemma add_nan_r x : x + nan = nan.
Proof.
  apply Prim2SF_inj. rewrite add_spec.
  change (Prim2SF nan) with S754_nan. by destruct (Prim2SF x).
Qed.
End IEEE.

(** *** The order of finite doubles is the order of their values *)

(** A valid finite double: exponent at least -1074, mantissa below 2^53,
    and at least 2^52 unless the exponent is -1074. *)
Lemma valid_finite s m e :
  SpecFloat.valid_binary prec emax (S754_finite s m e) = true →
  -1074 ≤ e ∧ Zpos m < 2 ^ 53 ∧ (-1074 < e → 2 ^ 52 ≤ Zpos m).
Proof.
  unfold SpecFloat.valid_binary, bounded, canonical_mantissa.
  intros [Hcanon%Z.eqb_eq _]%andb_true_iff.
  change (Zpos (digits2_pos m)) with (Zdigits2 (Zpos m)) in Hcanon.
  rewrite Zdigits2_log2 in Hcanon by lia.
  unfold fexp, SpecFloat.emin, prec, emax in Hcanon.
  destruct (Z.log2_spec (Zpos m) ltac:(lia)) as [Hlo Hhi].
  split_and!; [lia| |].
  - eapply Z.lt_le_trans; [exact Hhi|]. apply Z.pow_le_mono_r; lia.
  - intros He. replace 52 with (Z.log2 (Zpos m)) by lia. done.
Qed.

(** Between valid finite doubles of the same sign, the order of the values
    is the order of the exponents, then of the mantissas. *)
Lemma units_exponent m1 e1 m2 e2 :
  -1074 ≤ e1 → Zpos m1 < 2 ^ 53 → 2 ^ 52 ≤ Zpos m2 → e1 < e2 →
  Zpos m1 * 2 ^ (e1 + 1074) < Zpos m2 * 2 ^ (e2 + 1074).
Proof.
  intros He1 Hm1 Hm2 Hlt.
  replace (e2 + 1074) with (1 + (e2 - e1 - 1) + (e1 + 1074)) by lia.
  rewrite (Z.pow_add_r 2 (1 + (e2 - e1 - 1)) (e1 + 1074)),
    (Z.pow_add_r 2 1 (e2 - e1 - 1)) by lia.
  assert (0 < 2 ^ (e1 + 1074)) by (apply Z.pow_pos_nonneg; lia).
  assert (1 ≤ 2 ^ (e2 - e1 - 1)) by (apply (Z.pow_le_mono_r 2 0); lia).
  change (2 ^ 53) with (2 * 2 ^ 52) in Hm1. change (2 ^ 1) with 2.
  set (k := 2 ^ 52) in *. set (p := 2 ^ (e1 + 1074)) in *.
  set (q := 2 ^ (e2 - e1 - 1)) in *.
  assert (Zpos m1 * p < 2 * k * p) by (apply Z.mul_lt_mono_pos_r; lia).
  assert (2 * k * p ≤ 2 * Zpos m2 * p) by (apply Z.mul_le_mono_nonneg_r; lia).
  assert (2 * Zpos m2 * p * 1 ≤ 2 * Zpos m2 * p * q)
    by (apply Z.mul_le_mono_nonneg_l; lia).
  lia.
Qed.

Lemma SFltb_units x y :
  SpecFloat.valid_binary prec emax x = true →
  SpecFloat.valid_binary prec emax y = true →
  SFfinite x = true → SFfinite y = true →
  SFltb x y = (SFunits x <? SFunits y).
Proof.
  intros Vx Vy Fx Fy.
  destruct x as [sx| | |sx mx ex], y as [sy| | |sy my ey]; try done.
  - unfold SFltb; simpl.
    assert (0 < Zpos my * 2 ^ (ey + 1074)).
    { apply Z.mul_pos_pos; [lia|]. apply Z.pow_pos_nonneg; [lia|].
      destruct (valid_finite _ _ _ Vy). lia. }
    destruct sy; simpl; symmetry; [apply Z.ltb_ge|apply Z.ltb_lt]; lia.
  - unfold SFltb; simpl.
    assert (0 < Zpos mx * 2 ^ (ex + 1074)).
    { apply Z.mul_pos_pos; [lia|]. apply Z.pow_pos_nonneg; [lia|].
      destruct (valid_finite _ _ _ Vx). lia. }
    destruct sx; simpl; symmetry; [apply Z.ltb_lt|apply Z.ltb_ge]; lia.
  - destruct (valid_finite _ _ _ Vx) as (Hex & Hmx & Hnx).
    destruct (valid_finite _ _ _ Vy) as (Hey & Hmy & Hny).
    assert (0 < 2 ^ (ex + 1074)) by (apply Z.pow_pos_nonneg; lia).
    assert (0 < 2 ^ (ey + 1074)) by (apply Z.pow_pos_nonneg; lia).
    assert (ex < ey → Zpos mx * 2 ^ (ex + 1074) < Zpos my * 2 ^ (ey + 1074))
      as Hlt by (intros; apply units_exponent; lia).
    assert (ey < ex → Zpos my * 2 ^ (ey + 1074) < Zpos mx * 2 ^ (ex + 1074))
      as Hgt by (intros; apply units_exponent; lia).
    unfold SFltb, SFcompare, SFunits.
    rewrite Pos.compare_cont_spec. simpl (Pos.switch_Eq _ _).
    destruct sx, sy; simpl cond_Zopp;
      destruct (Z.compare_spec ex ey) as [->|?|?];
      try destruct (Pos.compare_spec mx my) as [->|?|?]; simpl;
      symmetry; (apply Z.ltb_lt || apply Z.ltb_ge); nia.
Qed.

Lemma ltb_toUnits x y :
  is_finite x = true → is_finite y = true →
  (x <? y)%float = (toUnits x <? toUnits y).
Proof.
  rewrite !is_finite_spec, ltb_spec. intros Fx Fy.
  apply SFltb_units; auto using Prim2SF_valid.
Qed.
Section Loop.
Context (villages : list Village) (allEdges : list Edge).

Lemma primLoop_step s :
  primLoop villages allEdges s =
  match loopStep villages allEdges s with
  | Some s' => primLoop villages allEdges s'
  | None => s
  end.
Proof.
  funelim (primLoop villages allEdges s).
  - by rewrite Hstep.
  - by match goal with H : loopStep _ _ _ = None |- _ => rewrite H end.
Qed.

(** Hoare-style rule for the loop: a property every iteration keeps holds
    of the state the loop is left in, where no further iteration runs. *)
Lemma primLoop_invariant (P : State → Prop) s :
  (∀ s1 s2, P s1 → loopStep villages allEdges s1 = Some s2 → P s2) →
  P s →
  P (primLoop villages allEdges s) ∧
  loopStep villages allEdges (primLoop villages allEdges s) = None.
Proof.
  intros Hkeep. funelim (primLoop villages allEdges s); intros HP.
  - eauto.
  - done.
Qed.
End Loop.

(** ** The scan of the candidate list *)

Section Scan.
Context (vis : gset Z).

Lemma findMinEdge_snoc allEdges edge :
  findMinEdge vis (allEdges ++ [edge]) =
  scanEdge vis (findMinEdge vis allEdges) edge.
Proof. unfold findMinEdge. by rewrite fold_left_app. Qed.

(** The edge the scan returns is one of the list. *)
Lemma scan_elem allEdges :
  ∀ acc e, fold_left (scanEdge vis) allEdges acc = Some e →
           acc = Some e ∨ e ∈ allEdges.
Proof.
  induction allEdges as [|x l IH]; simpl; intros acc e H; [by left|].
  destruct (IH _ _ H) as [Hx|Hl]; [|right; by constructor].
  unfold scanEdge in Hx. destruct (isFrontier vis x); [|by left].
  destruct acc as [m|]; [|injection Hx as <-; right; constructor].
  destruct (weight x <? weight m)%float; [|by left].
  injection Hx as <-. right. constructor.
Qed.

Lemma findMinEdge_elem allEdges e :
  findMinEdge vis allEdges = Some e → e ∈ allEdges.
Proof. intros [?|?]%scan_elem; done. Qed.

(** No frontier edge: [minEdge] stays [null]; and conversely. *)
Lemma findMinEdge_None allEdges :
  findMinEdge vis allEdges = None ↔
  ∀ g, g ∈ allEdges → isFrontier vis g = false.
Proof.
  induction allEdges as [|x l IH] using rev_ind.
  - split; [|done]. intros _ g Hg. by apply elem_of_nil in Hg.
  - rewrite findMinEdge_snoc. unfold scanEdge.
    destruct (isFrontier vis x) eqn:Hx.
    + split.
      * destruct (findMinEdge vis l); [|done].
        by destruct (weight x <? weight e)%float.
      * intros H. rewrite H in Hx; [done|].
        apply elem_of_app. right. constructor.
    + rewrite IH. split; intros H g Hg.
      * apply elem_of_app in Hg as [Hg|Hg]; [by apply H|].
        apply list_elem_of_singleton in Hg. by subst.
      * apply H, elem_of_app. by left.
Qed.

(** The scan returns the first of the lightest frontier edges, when the
    weights are numbers. *)
Lemma findMinEdge_Some allEdges edge :
  finiteWeights allEdges →
  findMinEdge vis allEdges = Some edge → firstLightest vis allEdges edge.
Proof.
  revert edge. induction allEdges as [|x l IH] using rev_ind; [done|].
  intros edge [Hl Hx%Forall_inv]%Forall_app. specialize (λ m, IH m Hl).
  rewrite findMinEdge_snoc. unfold scanEdge.
  destruct (isFrontier vis x) eqn:Hfx.
  - destruct (findMinEdge vis l) as [m|] eqn:Hm.
    + destruct (IH m eq_refl) as (l1 & l2 & El & Hfm & Hlt & Hle).
      clear IH. subst l.
      assert (is_finite (weight m) = true) as Hfin.
      { apply (proj1 (Forall_forall _ _) Hl), elem_of_app. right. constructor. }
      rewrite (ltb_toUnits _ _ Hx Hfin). fold (exactWeight x) (exactWeight m).
      destruct (Z.ltb_spec (exactWeight x) (exactWeight m)); intros [= <-].
      * exists (l1 ++ m :: l2), []. split_and!; [done..| |].
        -- intros g Hg Hfg.
           apply elem_of_app in Hg as [Hg|Hg];
             [specialize (Hlt g Hg Hfg); lia|].
           apply elem_of_cons in Hg as [->|Hg]; [lia|].
           specialize (Hle g Hg Hfg); lia.
        -- intros g Hg. by apply elem_of_nil in Hg.
      * exists l1, (l2 ++ [x]). split_and!; [by rewrite <- app_assoc|done..|].
        intros g Hg Hfg. apply elem_of_app in Hg as [Hg|Hg]; [by apply Hle|].
        apply list_elem_of_singleton in Hg. by subst.
    + intros [= <-]. exists l, []. split_and!; [done..| |].
      * intros g Hg Hfg.
        by rewrite (proj1 (findMinEdge_None l) Hm g Hg) in Hfg.
      * intros g Hg. by apply elem_of_nil in Hg.
  - intros Hm. destruct (IH _ Hm) as (l1 & l2 & El & Hfm & Hlt & Hle).
    clear IH. subst l. exists l1, (l2 ++ [x]).
    split_and!; [by rewrite <- app_assoc|done..|].
    intros g Hg Hfg. apply elem_of_app in Hg as [Hg|Hg]; [by apply Hle|].
    apply list_elem_of_singleton in Hg. subst. congruence.
Qed.

(** The position of the first lightest frontier edge is unique. *)
Lemma firstLightest_unique allEdges e1 e2 :
  firstLightest vis allEdges e1 → firstLightest vis allEdges e2 →
  e1 = e2.
Proof.
  intros (a1 & b1 & E1 & F1 & Hlt1 & Hle1) (a2 & b2 & E2 & F2 & Hlt2 & Hle2).
  rewrite E1 in E2.
  assert (e2 ∈ a1 ++ e1 :: b1) as In2
    by (rewrite E2; apply elem_of_app; right; constructor).
  assert (e1 ∈ a2 ++ e2 :: b2) as In1
    by (rewrite <- E2; apply elem_of_app; right; constructor).
  destruct (decide (e1 = e2)) as [|Hne]; [done|exfalso].
  apply elem_of_app in In2, In1. destruct In2 as [In2|In2], In1 as [In1|In1].
  - specialize (Hlt1 _ In2 F2). specialize (Hlt2 _ In1 F1). lia.
  - apply elem_of_cons in In1 as [?|In1]; [done|].
    specialize (Hlt1 _ In2 F2). specialize (Hle2 _ In1 F1). lia.
  - apply elem_of_cons in In2 as [?|In2]; [done|].
    specialize (Hlt2 _ In1 F1). specialize (Hle1 _ In2 F2). lia.
  - apply elem_of_cons in In1 as [?|In1]; [done|].
    apply elem_of_cons in In2 as [?|In2]; [done|].
    (* both lie strictly after each other: compare the prefixes' lengths *)
    destruct (Nat.lt_trichotomy (length a1) (length a2)) as [Hl|[Hl|Hl]].
    + assert ((a1 ++ e1 :: b1) !! length a1 = Some e1) as L1
        by (by rewrite list_lookup_middle).
      rewrite E2, lookup_app_l in L1 by done.
      apply list_elem_of_lookup_2 in L1.
      specialize (Hlt2 _ L1 F1).
      assert (exactWeight e1 <= exactWeight e2) by (by apply Hle1).
      lia.
    + apply app_inj_1 in E2 as [_ [= ?]]; done.
    + assert ((a2 ++ e2 :: b2) !! length a2 = Some e2) as L2
        by (by rewrite list_lookup_middle).
      rewrite <- E2, lookup_app_l in L2 by done.
      apply list_elem_of_lookup_2 in L2.
      specialize (Hlt1 _ L2 F2).
      assert (exactWeight e2 <= exactWeight e1) by (by apply Hle2).
      lia.
Qed.
End Scan.

(** ** Paths *)

Section Paths.
Implicit Types (T : list Edge) (a b : Z).

Lemma joins_sym edge a b : joins edge a b → joins edge b a.
Proof. unfold joins. tauto. Qed.

Lemma adjacent_sym T a b : adjacent T a b → adjacent T b a.
Proof. intros (g & ? & ?). exists g. eauto using joins_sym. Qed.

Lemma connected_sym T a b : connected T a b → connected T b a.
Proof.
  induction 1 as [|a b c Hab _ IH]; [apply rtc_refl|].
  eapply rtc_r; [exact IH|by apply adjacent_sym].
Qed.

Lemma connected_trans T a b c :
  connected T a b → connected T b c → connected T a c.
Proof. apply rtc_trans. Qed.

(** A path survives in any list that can replay each of its steps. *)
Lemma connected_replay T T' a b :
  (∀ x y, adjacent T x y → connected T' x y) →
  connected T a b → connected T' a b.
Proof.
  intros Hstep. induction 1 as [|a b c Hab _ IH]; [apply rtc_refl|].
  eapply connected_trans; [by apply Hstep|exact IH].
Qed.

Lemma connected_mono T T' a b :
  (∀ g, g ∈ T → g ∈ T') → connected T a b → connected T' a b.
Proof.
  intros Hsub. apply connected_replay. intros x y (g & Hg & Hj).
  apply rtc_once. exists g. eauto.
Qed.

(** A path that leaves the set [vis] crosses its border a last time, and
    stays outside from there on. *)
Lemma last_crossing T (vis : gset Z) a b :
  connected T a b → a ∈ vis → (b ∉ vis) →
  ∃ x y, x ∈ vis ∧ (y ∉ vis) ∧ adjacent T x y ∧
         rtc (λ c d, adjacent T c d ∧ (c ∉ vis) ∧ (d ∉ vis)) y b.
Proof.
  intros Hab Ha. revert b Hab.
  refine (rtc_ind_r _ a _ _); [done|].
  intros b c _ Hbc IH Hc.
  destruct (decide (b ∈ vis)) as [Hin|Hout].
  - exists b, c. split_and!; [done..|apply rtc_refl].
  - destruct (IH Hout) as (x & y & ? & ? & ? & Hpath).
    exists x, y. split_and!; [done..|].
    eapply rtc_r; [exact Hpath|done].
Qed.
End Paths.

(** ** What every iteration keeps *)

Section Invariant.
Context (villages : list Village) (allEdges : list Edge) (start : Z).

Lemma loopStep_Some s s' :
  loopStep villages allEdges s = Some s' →
  ∃ minEdge, findMinEdge (visited s) allEdges = Some minEdge ∧
             s' = acceptEdge s minEdge ∧
             (size (visited s) < length villages)%nat.
Proof.
  unfold loopStep. case_bool_decide; [|done].
  destruct (findMinEdge (visited s) allEdges) as [m|]; [|done].
  intros [= <-]. eauto.
Qed.

Lemma loopStep_None s :
  loopStep villages allEdges s = None →
  (length villages ≤ size (visited s))%nat ∨
  findMinEdge (visited s) allEdges = None.
Proof.
  unfold loopStep. case_bool_decide; [|left; lia].
  destruct (findMinEdge (visited s) allEdges); [done|by right].
Qed.

(** A frontier edge has a visited endpoint [u] and an unvisited one, the
    one line 52 adds. *)
Lemma frontier_ends (vis : gset Z) g :
  isFrontier vis g = true →
  ∃ u w, u ∈ vis ∧ (w ∉ vis) ∧ joins g u w ∧
         w = (if bool_decide (from g ∈ vis) then to g else from g).
Proof.
  unfold isFrontier, joins.
  destruct (bool_decide_reflect (from g ∈ vis)),
           (bool_decide_reflect (to g ∈ vis)); simpl; try done; intros _.
  - exists (from g), (to g). split_and!; auto.
  - exists (to g), (from g). split_and!; auto.
Qed.

Lemma visitedAfter_snoc pre g :
  visitedAfter start (pre ++ [g]) =
  {[ if bool_decide (from g ∈ visitedAfter start pre)
     then to g else from g ]} ∪ visitedAfter start pre.
Proof. unfold visitedAfter. by rewrite fold_left_app. Qed.

Lemma Inv_initial : Inv allEdges start (initialState start).
Proof.
  split; cbn [initialState visited st_mst st_sequence]; try done.
  - by apply elem_of_singleton.
  - by rewrite size_singleton.
  - intros g Hg. by apply elem_of_nil in Hg.
  - intros g Hg. by apply elem_of_nil in Hg.
  - intros a ->%elem_of_singleton. by left.
  - constructor.
  - intros a ->%elem_of_singleton. apply rtc_refl.
Qed.

Lemma Inv_step s s' :
  Inv allEdges start s → loopStep villages allEdges s = Some s' →
  Inv allEdges start s'.
Proof.
  intros I (m & Hm & -> & _)%loopStep_Some.
  pose proof (findMinEdge_elem _ _ _ Hm) as Hin.
  pose proof (findMinEdge_frontier _ _ _ Hm) as Hfr.
  destruct (frontier_ends _ _ Hfr) as (u & w & Hu & Hw & Hj & Ew).
  assert (m ∉ st_mst s) as Hfresh.
  { intros Hmem. destruct (inv_inside _ _ _ I _ Hmem) as [Hf Ht].
    destruct Hj as [[<- <-]|[<- <-]]; done. }
  unfold acceptEdge. rewrite <- Ew.
  split; cbn [visited st_mst st_sequence].
  - by rewrite (inv_same _ _ _ I).
  - rewrite visitedAfter_snoc, <- (inv_replay _ _ _ I). by rewrite <- Ew.
  - apply elem_of_union. right. apply (inv_start _ _ _ I).
  - rewrite size_union, size_singleton, length_app, (inv_size _ _ _ I).
    + simpl. lia.
    + intros a ->%elem_of_singleton. done.
  - intros g [Hg| ->%list_elem_of_singleton]%elem_of_app; [|done].
    by apply (inv_sub _ _ _ I).
  - intros g [Hg| ->%list_elem_of_singleton]%elem_of_app.
    + destruct (inv_inside _ _ _ I _ Hg). split; apply elem_of_union; by right.
    + destruct Hj as [[-> ->]|[-> ->]]; split; apply elem_of_union;
        (by right) || (left; by apply elem_of_singleton).
  - intros a [->%elem_of_singleton|Ha]%elem_of_union.
    + right. exists m. split; [apply elem_of_app; right; constructor|].
      destruct Hj as [[_ <-]|[<- _]]; auto.
    + destruct (inv_ends _ _ _ I _ Ha) as [->|(g & Hg & Hag)]; [by left|].
      right. exists g. split; [apply elem_of_app; by left|done].
  - apply NoDup_app.
    split_and!; [apply (inv_nodup _ _ _ I)| |apply NoDup_singleton].
    intros g Hg ->%list_elem_of_singleton. done.
  - assert (∀ a, a ∈ visited s → connected (st_mst s ++ [m]) start a) as Hold.
    { intros a Ha. eapply connected_mono; [|by apply (inv_conn _ _ _ I)].
      intros g Hg. apply elem_of_app. by left. }
    intros a [->%elem_of_singleton|Ha]%elem_of_union; [|by apply Hold].
    eapply rtc_r; [by apply (Hold u)|].
    exists m. split; [apply elem_of_app; right; constructor|done].
Qed.

(** With weights that are numbers, the edges are accepted in order. *)
Lemma inOrder_step s s' :
  finiteWeights allEdges →
  Inv allEdges start s → inOrder allEdges start (st_mst s) →
  loopStep villages allEdges s = Some s' →
  inOrder allEdges start (st_mst s').
Proof.
  intros Hfin I Hord (m & Hm & -> & _)%loopStep_Some pre g post Hsplit.
  cbn [acceptEdge st_mst] in Hsplit.
  destruct post as [|x post _] using rev_ind.
  - apply app_inj_tail in Hsplit as [<- <-].
    rewrite <- (inv_replay _ _ _ I). by apply findMinEdge_Some.
  - rewrite app_comm_cons, app_assoc in Hsplit.
    apply app_inj_tail in Hsplit as [Hsplit _].
    by apply (Hord _ _ post).
Qed.

(** The state the loop is left in, started from the initial state. *)
Lemma Inv_final :
  let s := primLoop villages allEdges (initialState start) in
  Inv allEdges start s ∧ loopStep villages allEdges s = None.
Proof. apply primLoop_invariant; [apply Inv_step|apply Inv_initial]. Qed.
End Invariant.

(** ** Sums of weights *)

Lemma fold_weight_shift T (a : Z) :
  fold_left (λ sum edge, sum + exactWeight edge) T a = a + totalWeight T.
Proof.
  unfold totalWeight. revert a.
  induction T as [|g T IH]; intros a; simpl; [lia|].
  rewrite (IH (a + exactWeight g)), (IH (0 + exactWeight g)). lia.
Qed.

Lemma totalWeight_cons g T :
  totalWeight (g :: T) = exactWeight g + totalWeight T.
Proof. unfold totalWeight at 1. simpl. by rewrite fold_weight_shift. Qed.

Lemma totalWeight_app T1 T2 :
  totalWeight (T1 ++ T2) = totalWeight T1 + totalWeight T2.
Proof.
  unfold totalWeight at 1. rewrite fold_left_app. fold (totalWeight T1).
  apply fold_weight_shift.
Qed.

(** ** A connected candidate graph *)

Section Connected.
Context (villages : list Village) (allEdges : list Edge) (start : Z).
Hypothesis distinct : NoDup (ids villages).
Hypothesis graph : connectedGraph villages allEdges.
Hypothesis start_in : start ∈ ids villages.

Lemma joins_frontier (vis : gset Z) g x y :
  joins g x y → x ∈ vis → (y ∉ vis) → isFrontier vis g = true.
Proof.
  unfold joins, isFrontier. intros [[<- <-]|[<- <-]] Hx Hy.
  - by rewrite (bool_decide_eq_true_2 _ Hx), (bool_decide_eq_false_2 _ Hy).
  - rewrite (bool_decide_eq_true_2 _ Hx), (bool_decide_eq_false_2 _ Hy).
    apply orb_true_r.
Qed.

Lemma firstLightest_le (vis : gset Z) m g :
  firstLightest vis allEdges m → g ∈ allEdges →
  isFrontier vis g = true → exactWeight m <= exactWeight g.
Proof.
  intros (l1 & l2 & E & _ & Hlt & Hle) Hg Hfg. rewrite E in Hg.
  apply elem_of_app in Hg as [Hg|Hg]; [specialize (Hlt _ Hg Hfg); lia|].
  apply elem_of_cons in Hg as [->|Hg]; [lia|by apply Hle].
Qed.

Lemma visited_points s a :
  Inv allEdges start s → a ∈ visited s → a ∈ ids villages.
Proof.
  intros I Ha. destruct (inv_ends _ _ _ I _ Ha) as [->|(g & Hg & Hag)]; [done|].
  apply (inv_sub _ _ _ I), (proj1 graph) in Hg as [??].
  by destruct Hag as [->| ->].
Qed.

(** While a point is unvisited, some candidate edge is on the frontier. *)
Lemma frontier_exists s b :
  Inv allEdges start s → b ∈ ids villages → (b ∉ visited s) →
  ∃ g, g ∈ allEdges ∧ isFrontier (visited s) g = true.
Proof.
  intros I Hb Hout.
  destruct (last_crossing allEdges (visited s) start b)
    as (x & y & Hx & Hy & (g & Hg & Hj) & _);
    [by apply (proj2 graph)|apply (inv_start _ _ _ I)|done|].
  exists g. eauto using joins_frontier.
Qed.

(** When the loop is left, every point has been visited. *)
Lemma final_visited s :
  Inv allEdges start s → loopStep villages allEdges s = None →
  visited s = list_to_set (ids villages).
Proof.
  intros I Hnone.
  assert (visited s ⊆ list_to_set (ids villages)) as Hsub.
  { intros a Ha. apply elem_of_list_to_set. by eapply visited_points. }
  assert (size (list_to_set (ids villages) : gset Z) = length villages) as Hn.
  { rewrite size_list_to_set by done. apply length_map. }
  apply loopStep_None in Hnone as [Hfull|Hnofront].
  - apply set_subseteq_size_eq; [done|]. rewrite Hn. done.
  - apply set_eq. intros b. split; [apply Hsub|].
    intros Hb%elem_of_list_to_set.
    destruct (decide (b ∈ visited s)) as [|Hout]; [done|exfalso].
    destruct (frontier_exists s b I Hb Hout) as (g & Hg & Hfg).
    by rewrite (proj1 (findMinEdge_None _ _) Hnofront g Hg) in Hfg.
Qed.

Lemma final_length s :
  Inv allEdges start s → loopStep villages allEdges s = None →
  S (length (st_mst s)) = length villages.
Proof.
  intros I Hnone. rewrite <- (inv_size _ _ _ I), (final_visited s I Hnone).
  rewrite size_list_to_set by done. apply length_map.
Qed.
End Connected.

(** ** The exchange argument *)

Section Exchange.
Context (villages : list Village) (allEdges : list Edge) (start : Z).
Hypothesis distinct : NoDup (ids villages).
Hypothesis graph : connectedGraph villages allEdges.
Hypothesis start_in : start ∈ ids villages.
Hypothesis numbers : finiteWeights allEdges.

Lemma joins_same g a b x y :
  joins g a b → joins g x y → (a = x ∧ b = y) ∨ (a = y ∧ b = x).
Proof. unfold joins. intros [[<- <-]|[<- <-]] [[<- <-]|[<- <-]]; auto. Qed.

Lemma exchange T s s' :
  Inv allEdges start s → extendsTo villages allEdges T s →
  loopStep villages allEdges s = Some s' → extendsTo villages allEdges T s'.
Proof.
  intros I (R & Hsub & Hlen & Hconn & Hle) (m & Hm & -> & _)%loopStep_Some.
  pose proof (findMinEdge_Some _ _ _ numbers Hm) as Hfirst.
  pose proof (findMinEdge_frontier _ _ _ Hm) as Hfr.
  pose proof (findMinEdge_elem _ _ _ Hm) as Hin.
  destruct (frontier_ends _ _ Hfr) as (u & w & Hu & Hw & Hj & _).
  assert (u ∈ ids villages ∧ w ∈ ids villages) as [Hup Hwp].
  { destruct (proj1 graph _ Hin). by destruct Hj as [[<- <-]|[<- <-]]. }
  (* the path of the extension from [u] to [w] leaves [visited] through [f] *)
  destruct (last_crossing _ (visited s) u w (Hconn u w Hup Hwp) Hu Hw)
    as (x & y & Hx & Hy & (f & Hf & Hjf) & Hout).
  assert (∀ g c d, g ∈ st_mst s → joins g c d → c ∈ visited s ∧ d ∈ visited s)
    as Hinside.
  { intros g c d Hg Hjg. destruct (inv_inside _ _ _ I _ Hg).
    by destruct Hjg as [[<- <-]|[<- <-]]. }
  apply elem_of_app in Hf as [Hf|Hf]; [by destruct (Hinside _ _ _ Hf Hjf)|].
  apply list_elem_of_split in Hf as (l1 & l2 & ->).
  assert (exactWeight m <= exactWeight f) as Hmf.
  { apply (firstLightest_le allEdges (visited s));
      [done| |exact (joins_frontier _ _ _ _ Hjf Hx Hy)].
    apply Hsub, elem_of_app. right. apply elem_of_app. right. constructor. }
  exists (l1 ++ l2). cbn [acceptEdge st_mst].
  set (N := (st_mst s ++ [m]) ++ l1 ++ l2).
  assert (∀ g, g ∈ st_mst s ∨ g = m ∨ g ∈ l1 ∨ g ∈ l2 → g ∈ N) as HN.
  { intros g Hg. unfold N.
    rewrite !elem_of_app, list_elem_of_singleton. tauto. }
  assert (∀ g c d, g ∈ N → joins g c d → connected N c d) as Hedge.
  { intros g c d Hg Hjg. apply rtc_once. by exists g. }
  split_and!.
  - intros g. fold N. unfold N.
    rewrite !elem_of_app, list_elem_of_singleton.
    intros [[Hg| ->]|[Hg|Hg]]; [|done| |]; apply Hsub;
      rewrite !elem_of_app, elem_of_cons; tauto.
  - fold N. unfold N. rewrite !length_app in *. simpl in *. lia.
  - assert (∀ a, a ∈ visited s → connected N start a) as Hvis.
    { intros a Ha. eapply connected_mono; [|by apply (inv_conn _ _ _ I)].
      intros g Hg. apply HN. by left. }
    assert (connected N u w) as Huw.
    { apply (Hedge m); [apply HN; tauto|exact Hj]. }
    assert (connected N y w) as Hyw.
    { refine (rtc_subrel _ _ y w _ Hout).
      intros c d ((g & Hg & Hjg) & Hc & Hd). exists g. split; [|done].
      apply HN.
      apply elem_of_app in Hg as [Hg|Hg];
        [by destruct (Hinside _ _ _ Hg Hjg)|].
      apply elem_of_app in Hg as [Hg|Hg]; [tauto|].
      apply elem_of_cons in Hg as [->|Hg]; [|tauto].
      destruct (joins_same _ _ _ _ _ Hjg Hjf) as [[-> _]|[_ ->]]; done. }
    assert (connected N x y) as Hxy.
    { apply (connected_trans _ _ start); [by apply connected_sym, Hvis|].
      apply (connected_trans _ _ u); [by apply Hvis|].
      apply (connected_trans _ _ w); [done|by apply connected_sym]. }
    intros a b Ha Hb. eapply connected_replay; [|by apply Hconn].
    intros c d (g & Hg & Hjg).
    apply elem_of_app in Hg as [Hg|Hg];
      [apply (Hedge g); [apply HN; tauto|done]|].
    apply elem_of_app in Hg as [Hg|Hg];
      [apply (Hedge g); [apply HN; tauto|done]|].
    apply elem_of_cons in Hg as [->|Hg];
      [|apply (Hedge g); [apply HN; tauto|done]].
    destruct (joins_same _ _ _ _ _ Hjg Hjf) as [[-> ->]|[-> ->]];
      [done|by apply connected_sym].
  - fold N. unfold N.
    rewrite !totalWeight_app, totalWeight_cons in Hle.
    rewrite !totalWeight_app, totalWeight_cons. unfold totalWeight at 2.
    simpl. lia.
Qed.

(** The accepted edges weigh no more than any spanning tree. *)
Lemma final_minimal T s :
  spanningTree villages allEdges T →
  s = primLoop villages allEdges (initialState start) →
  totalWeight (st_mst s) <= totalWeight T.
Proof.
  intros (Hsub & Hlen & Hconn) ->.
  destruct (primLoop_invariant villages allEdges
              (λ s, Inv allEdges start s ∧
                      extendsTo villages allEdges T s)
              (initialState start)) as [[I (R & _ & HlenR & _ & Hle)] Hnone].
  - intros s1 s2 [I X] Hstep. split; [by eapply Inv_step|by eapply exchange].
  - split; [apply Inv_initial|]. exists T. simpl. split_and!; [|lia|done..].
    intros g Hg. by eapply elem_of_submseteq.
  - pose proof (final_length _ _ _ distinct graph start_in _ I Hnone) as Hfin.
    rewrite length_app in HlenR.
    destruct R; [by rewrite app_nil_r in Hle|simpl in HlenR; lia].
Qed.
End Exchange.

(** ** The candidate list of the caller *)

Lemma complete_connected villages allEdges :
  complete villages allEdges → connectedGraph villages allEdges.
Proof.
  intros [Hends Hall]. split; [done|]. intros a b Ha Hb.
  destruct (decide (a = b)) as [->|Hne]; [apply rtc_refl|].
  apply rtc_once. by apply Hall.
Qed.

Lemma allPossibleEdges_elem M villages g :
  g ∈ allPossibleEdges M villages →
  from g ∈ ids villages ∧ to g ∈ ids villages.
Proof.
  induction villages as [|v1 rest IH]; simpl; [by intros ?%elem_of_nil|].
  intros [Hg|Hg]%elem_of_app.
  - apply list_elem_of_fmap in Hg as (v2 & -> & Hv2). simpl. split.
    + constructor.
    + apply elem_of_cons. right. apply list_elem_of_fmap. eauto.
  - destruct (IH Hg). split; apply elem_of_cons; by right.
Qed.

(** The nested loops build the complete graph over the points. *)
Lemma allPossibleEdges_complete M villages :
  complete villages (allPossibleEdges M villages).
Proof.
  split; [intros g; apply allPossibleEdges_elem|].
  induction villages as [|v1 rest IH]; [by intros a b ?%elem_of_nil|].
  assert (∀ b, b ∈ ids rest →
            ∃ g, g ∈ allPossibleEdges M (v1 :: rest) ∧
                 from g = id v1 ∧ to g = b) as Hrow.
  { intros b (v2 & -> & Hv2)%list_elem_of_fmap.
    eexists. split; [apply elem_of_app; left; apply list_elem_of_fmap; eauto|].
    done. }
  intros a b Ha Hb Hne. simpl in Ha, Hb.
  apply elem_of_cons in Ha as [->|Ha], Hb as [->|Hb]; [done| | |].
  - destruct (Hrow b Hb) as (g & ? & ? & ?). exists g. split; [done|]. by left.
  - destruct (Hrow a Ha) as (g & ? & ? & ?). exists g. split; [done|]. by right.
  - destruct (IH a b Ha Hb Hne) as (g & ? & ?). exists g. split; [|done].
    simpl. apply elem_of_app. by right.
Qed.

(** ** The result of a run *)

Section Run.
Context (villages : list Village) (allEdges : list Edge).

(** The run on a non-empty list, in terms of the loop's final state. *)
Lemma run_cons v0 rest startNodeId :
  villages = v0 :: rest →
  let s := primLoop villages allEdges
             (initialState (startingPoint v0 startNodeId)) in
  runPrimsAlgorithm villages allEdges startNodeId =
    {| mst := st_mst s; sequence := st_sequence s |} ∧
  Inv allEdges (startingPoint v0 startNodeId) s ∧
  loopStep villages allEdges s = None.
Proof.
  intros ->. split; [done|]. apply Inv_final.
Qed.

(** The start the run resolves is a point: an explicit start that is one,
    or the fallback. *)
Lemma start_resolved v0 rest startNodeId :
  villages = v0 :: rest →
  (∀ i, startNodeId = Some i → i ∈ ids villages) →
  startingPoint v0 startNodeId ∈ ids villages.
Proof.
  intros -> Hres. destruct startNodeId as [i|]; simpl; [by apply Hres|].
  constructor.
Qed.

(** No iteration runs once [visited] has as many members as there are
    points: at most [n - 1] edges are accepted. *)
Lemma accepted_bound start :
  villages ≠ [] →
  (size (visited (primLoop villages allEdges (initialState start)))
     ≤ length villages)%nat.
Proof.
  intros Hne.
  apply (primLoop_invariant villages allEdges
           (λ s, (size (visited s) ≤ length villages)%nat)).
  - intros s1 s2 _ [??]%loopStep_size. lia.
  - cbn [initialState visited]. rewrite size_singleton.
    destruct villages; [done|simpl; lia].
Qed.
End Run.


(** With weights that are numbers, each edge of [mst] is the first lightest
    frontier edge for the visited set its predecessors leave. *)
Lemma run_order villages allEdges startNodeId v0 rest :
  finiteWeights allEdges →
  villages = v0 :: rest →
  inOrder allEdges (startingPoint v0 startNodeId)
    (mst (runPrimsAlgorithm villages allEdges startNodeId)).
Proof.
  intros Hfin ->. cbn [runPrimsAlgorithm mst].
  set (start := startingPoint v0 startNodeId).
  apply (primLoop_invariant (v0 :: rest) allEdges
           (λ s, Inv allEdges start s ∧ inOrder allEdges start (st_mst s))).
  - intros s1 s2 [I Hord] Hstep.
    split; [by eapply Inv_step|by eapply inOrder_step].
  - split; [apply Inv_initial|]. intros [|??] ???; discriminate.
Qed.

(** ** The properties of the specification *)

(** C2. With [n >= 1] points of distinct identifiers, the complete candidate
    list over them, and a start that is one of the points (or absent, so
    that the first point is taken), [sequence] has exactly [n - 1] edges. *)
Theorem sequence_length villages allEdges startNodeId :
  (1 ≤ length villages)%nat →
  NoDup (ids villages) →
  complete villages allEdges →
  (∀ i, startNodeId = Some i → i ∈ ids villages) →
  Z.of_nat (length (sequence (runPrimsAlgorithm villages allEdges startNodeId)))
  = Z.of_nat (length villages) - 1.
Proof.
  intros Hn Hdistinct Hgraph%complete_connected Hstart.
  destruct villages as [|v0 rest] eqn:E; [simpl in Hn; lia|]. rewrite <- E in *.
  destruct (run_cons villages allEdges v0 rest startNodeId E)
    as (-> & I & Hnone).
  cbn [sequence]. rewrite (inv_same _ _ _ I).
  pose proof (final_length villages allEdges _ Hdistinct Hgraph
                (start_resolved _ _ _ _ E Hstart) _ I Hnone).
  lia.
Qed.

Lemma sequence_length_witness :
  let villages := [village 1 0; village 2 1; village 3 2] in
  Z.of_nat (length (sequence (runPrimsAlgorithm villages
     (allPossibleEdges smallAngle villages) (Some 2))))
  = Z.of_nat (length villages) - 1.
Proof.
  apply sequence_length.
  - simpl. lia.
  - apply (bool_decide_unpack _). vm_compute. reflexivity.
  - apply allPossibleEdges_complete.
  - intros i [= <-]. apply (bool_decide_unpack _). vm_compute. reflexivity.
Defined.

(** Two points under one identifier are one vertex: [visited] cannot grow
    to [villages.length], and the loop is left by its [break]. *)
Example shared_identifier_run :
  let villages := [village 1 0; village 1 1] in
  sequence (runPrimsAlgorithm villages
              (allPossibleEdges smallAngle villages) (Some 1)) = [].
Proof. vm_compute. reflexivity. Qed.

(** C1, as the code has it. With points of distinct identifiers, a complete
    candidate list over them (the pairwise list weighted by the distance is
    one, [allPossibleEdges_complete]) in which every weight is a finite
    number, and a start that is one of the points, [mst] is a spanning tree
    of the candidate graph and no spanning tree weighs less: its total
    weight is the minimum. *)
Theorem mst_minimal villages allEdges startNodeId :
  (1 ≤ length villages)%nat →
  NoDup (ids villages) →
  complete villages allEdges →
  finiteWeights allEdges →
  (∀ i, startNodeId = Some i → i ∈ ids villages) →
  let tree := mst (runPrimsAlgorithm villages allEdges startNodeId) in
  spanningTree villages allEdges tree ∧
  ∀ T, spanningTree villages allEdges T → totalWeight tree <= totalWeight T.
Proof.
  intros Hn Hdistinct Hgraph%complete_connected Hfin Hstart.
  destruct villages as [|v0 rest] eqn:E; [simpl in Hn; lia|]. rewrite <- E in *.
  destruct (run_cons villages allEdges v0 rest startNodeId E)
    as (-> & I & Hnone).
  pose proof (start_resolved _ _ _ _ E Hstart) as Hin.
  cbn [mst]. split.
  - split_and!.
    + apply NoDup_submseteq;
        [apply (inv_nodup _ _ _ I)|apply (inv_sub _ _ _ I)].
    + pose proof (final_length _ _ _ Hdistinct Hgraph Hin _ I Hnone). lia.
    + assert (∀ a, a ∈ ids villages → connected (st_mst
          (primLoop villages allEdges
             (initialState (startingPoint v0 startNodeId))))
          (startingPoint v0 startNodeId) a) as Hreach.
      { intros a Ha. apply (inv_conn _ _ _ I).
        rewrite (final_visited _ _ _ Hdistinct Hgraph Hin _ I Hnone).
        by apply elem_of_list_to_set. }
      intros a b Ha Hb.
      eapply connected_trans; [apply connected_sym|]; by apply Hreach.
  - intros T HT. by eapply final_minimal.
Qed.

Lemma mst_minimal_witness :
  let villages := [village 1 0; village 2 1; village 3 4; village 4 2] in
  let allEdges := allPossibleEdges smallAngle villages in
  let tree := mst (runPrimsAlgorithm villages allEdges (Some 3)) in
  endpoints tree = [(3, 4); (2, 4); (1, 2)] ∧
  spanningTree villages allEdges tree ∧
  ∀ T, spanningTree villages allEdges T → totalWeight tree <= totalWeight T.
Proof.
  split; [vm_compute; reflexivity|].
  apply mst_minimal.
  - simpl. lia.
  - apply (bool_decide_unpack _). vm_compute. reflexivity.
  - apply allPossibleEdges_complete.
  - repeat constructor.
  - intros i [= <-]. apply (bool_decide_unpack _). vm_compute. reflexivity.
Defined.

(** C3. With weights that are numbers, in an iteration that accepts an edge
    the edge appended to [mst] and to [sequence] is a frontier edge of
    minimum weight and, of the frontier edges of that weight, the one that
    comes first in the candidate list; the list and the visited set
    determine it. *)
Theorem tie_break_first villages allEdges s s' :
  finiteWeights allEdges →
  loopStep villages allEdges s = Some s' →
  ∃ minEdge,
    firstLightest (visited s) allEdges minEdge ∧
    (∀ g, firstLightest (visited s) allEdges g → g = minEdge) ∧
    st_mst s' = st_mst s ++ [minEdge] ∧
    st_sequence s' = st_sequence s ++ [minEdge].
Proof.
  intros Hfin (m & Hm & -> & _)%loopStep_Some.
  apply findMinEdge_Some in Hm; [|done].
  exists m. split_and!; [done| |done..].
  intros g Hg. by eapply firstLightest_unique.
Qed.

Lemma tie_break_first_witness :
  let allEdges := [edge 2 3 1; edge 1 3 5; edge 1 2 5] in
  let s := initialState 1 in
  let s' := acceptEdge s (edge 1 3 5) in
  loopStep [village 1 0; village 2 1; village 3 2] allEdges s = Some s' ∧
  ∃ minEdge,
    firstLightest (visited s) allEdges minEdge ∧
    (∀ g, firstLightest (visited s) allEdges g → g = minEdge) ∧
    st_mst s' = st_mst s ++ [minEdge] ∧
    st_sequence s' = st_sequence s ++ [minEdge].
Proof.
  split; [vm_compute; reflexivity|].
  apply (tie_break_first [village 1 0; village 2 1; village 3 2]).
  - repeat constructor.
  - vm_compute. reflexivity.
Defined.

(** A NaN weight compares as neither smaller nor larger: once [minEdge]
    holds it, no later edge replaces it. *)
Example nan_weight_scan :
  findMinEdge {[ 1 ]} [edge 1 2 nan; edge 1 3 1] = Some (edge 1 2 nan).
Proof. vm_compute. reflexivity. Qed.

(** C4, as the code has it. With fewer than two points the result is empty,
    whatever the candidate list and the start. *)
Theorem few_points_empty villages allEdges startNodeId :
  (length villages < 2)%nat →
  runPrimsAlgorithm villages allEdges startNodeId = emptyResult.
Proof.
  intros Hn. destruct villages as [|v0 [|v1 rest]]; [done| |simpl in Hn; lia].
  unfold runPrimsAlgorithm. rewrite primLoop_step. unfold loopStep.
  cbn [initialState visited length]. rewrite size_singleton.
  by rewrite bool_decide_eq_false_2 by lia.
Qed.

Lemma few_points_empty_witness :
  runPrimsAlgorithm [village 1 0] [edge 1 2 5] (Some 1) = emptyResult.
Proof. apply few_points_empty. simpl. lia. Defined.

(** C4 as stated fails: with two points and no start the run falls back to
    the first point and accepts the edge between them. *)
Lemma missing_start_not_empty :
  ¬ (∀ villages allEdges startNodeId,
       (length villages < 2)%nat ∨ startNodeId = None →
       runPrimsAlgorithm villages allEdges startNodeId = emptyResult).
Proof.
  intros H.
  specialize (H [village 1 0; village 2 1] [edge 1 2 5] None
                (or_intror eq_refl)).
  vm_compute in H. discriminate H.
Qed.

(** The empty answer for a missing start is the caller's: its guard returns
    before the candidate list is built. *)
Lemma animationSequence_guard M villages startNodeId :
  (length villages < 2)%nat ∨ startNodeId = None ∨ startNodeId = Some 0 →
  animationSequence M villages startNodeId = [].
Proof.
  unfold animationSequence. intros [Hn|[->| ->]].
  - by rewrite (proj2 (Nat.ltb_lt _ _) Hn).
  - by rewrite orb_true_r.
  - by rewrite orb_true_r.
Qed.

(** C6. [mst] and [sequence] are the same list, on every input. *)
Theorem mst_is_sequence villages allEdges startNodeId :
  mst (runPrimsAlgorithm villages allEdges startNodeId) =
  sequence (runPrimsAlgorithm villages allEdges startNodeId).
Proof.
  destruct villages as [|v0 rest] eqn:E; [done|]. rewrite <- E.
  destruct (run_cons villages allEdges v0 rest startNodeId E) as (-> & I & _).
  symmetry. apply (inv_same _ _ _ I).
Qed.


(** A candidate list that leaves point 3 apart: the run stops after one
    edge and returns it. *)
Example disconnected_run :
  runPrimsAlgorithm [village 1 0; village 2 1; village 3 2] [edge 1 2 5]
    (Some 1)
  = {| mst := [edge 1 2 5]; sequence := [edge 1 2 5] |}.
Proof. vm_compute. reflexivity. Qed.

(** C10. When the supplied start is an endpoint of no candidate edge, the
    first scan finds no frontier edge and the result is empty. *)
Theorem foreign_start_empty villages allEdges start :
  villages ≠ [] →
  (∀ g, g ∈ allEdges → from g ≠ start ∧ to g ≠ start) →
  findMinEdge (visited (initialState start)) allEdges = None ∧
  runPrimsAlgorithm villages allEdges (Some start) = emptyResult.
Proof.
  intros Hne Hforeign.
  assert (findMinEdge (visited (initialState start)) allEdges = None) as Hscan.
  { apply findMinEdge_None. intros g [Hf Ht]%Hforeign.
    unfold isFrontier. cbn [initialState visited].
    rewrite !bool_decide_eq_false_2; [done|..]; by intros ?%elem_of_singleton. }
  split; [done|]. destruct villages as [|v0 rest]; [done|].
  unfold runPrimsAlgorithm.
  change (startingPoint v0 (Some start)) with start.
  rewrite primLoop_step. unfold loopStep.
  rewrite Hscan. by case_bool_decide.
Qed.

Lemma foreign_start_empty_witness :
  findMinEdge (visited (initialState 9)) [edge 1 2 5; edge 2 3 1] = None ∧
  runPrimsAlgorithm [village 1 0; village 2 1; village 3 2]
    [edge 1 2 5; edge 2 3 1] (Some 9) = emptyResult.
Proof.
  apply foreign_start_empty; [done|].
  intros g Hg. apply list_elem_of_In in Hg. simpl in Hg.
  destruct Hg as [<-|[<-|[]]]; done.
Defined.

(** ** The distance metric *)

Section Metric.
Local Open Scope float_scope.
Context (M : MathLibrary).

(** Swapping the two points negates the angle, or leaves it as it is. *)
Lemma halfAngle_swap x y :
  halfAngle y x = - halfAngle x y ∨ halfAngle y x = halfAngle x y.
Proof.
  unfold halfAngle. destruct (sub_swap y x) as [-> | ->]; [left|by right].
  by rewrite mul_opp_l, !div_opp_l.
Qed.

Lemma sin_square_swap x y :
  (∀ z, Math_sin M (- z) = - Math_sin M z) →
  Math_sin M (halfAngle y x) * Math_sin M (halfAngle y x) =
  Math_sin M (halfAngle x y) * Math_sin M (halfAngle x y).
Proof.
  intros sin_odd. destruct (halfAngle_swap x y) as [-> | ->]; [|done].
  by rewrite sin_odd, mul_opp_l, mul_opp_r, opp_involutive.
Qed.

Lemma sin_scaled_swap p x y :
  (∀ z, Math_sin M (- z) = - Math_sin M z) →
  p * Math_sin M (halfAngle y x) * Math_sin M (halfAngle y x) =
  p * Math_sin M (halfAngle x y) * Math_sin M (halfAngle x y).
Proof.
  intros sin_odd. destruct (halfAngle_swap x y) as [-> | ->]; [|done].
  by rewrite sin_odd, !mul_opp_r, mul_opp_l, opp_involutive.
Qed.

(** C7. With an odd [Math.sin] (as fdlibm's is), swapping the two points
    gives the same double, for all coordinates, NaN and infinities
    included; when that double is not NaN, [===] holds of the two
    results. *)
Theorem haversine_symmetric latA lonA latB lonB :
  (∀ x, Math_sin M (- x) = - Math_sin M x) →
  let dAB := haversineDistance M latA lonA latB lonB in
  let dBA := haversineDistance M latB lonB latA lonA in
  dAB = dBA ∧ (is_nan dAB = false → (dAB =? dBA) = true).
Proof.
  intros sin_odd dAB dBA.
  assert (dAB = dBA) as E.
  { unfold dAB, dBA, haversineDistance. cbv zeta.
    fold (halfAngle latA latB) (halfAngle lonA lonB)
         (halfAngle latB latA) (halfAngle lonB lonA).
    rewrite (sin_square_swap latA latB sin_odd).
    rewrite (sin_scaled_swap _ lonA lonB sin_odd).
    by rewrite (mul_comm (Math_cos M (latB * _ / _))). }
  split; [done|]. rewrite <- E. unfold is_nan.
  by intros ->%negb_false_iff.
Qed.

(** C8, as the code has it. For finite coordinates whose latitude is still
    finite in radians, and a library with [Math.sin(+0) = +0],
    [Math.atan2(+0, 1) = +0] and [Math.cos] of a finite number in
    [[-1, 1]], the distance from a point to itself is [+0] exactly. *)
Theorem haversine_identity lat lon :
  Math_sin M 0 = 0 →
  Math_atan2 M 0 1 = 0 →
  (∀ x, is_finite x = true →
        (-1 <=? Math_cos M x) && (Math_cos M x <=? 1) = true) →
  is_finite lat = true → is_finite lon = true →
  is_finite (lat * Math_PI / 180) = true →
  haversineDistance M lat lon lat lon = 0.
Proof.
  intros sin_zero atan2_zero cos_range Hlat Hlon Hrad.
  unfold haversineDistance. cbv zeta.
  rewrite !sub_diag by done.
  change (0 * Math_PI / 180 / 2) with 0. rewrite sin_zero.
  change (0 * 0) with 0.
  rewrite add_mul_zero by (apply mul_unit; by apply cos_range).
  change (sqrt 0) with 0. change (sqrt (1 - 0)) with 1.
  rewrite atan2_zero. reflexivity.
Qed.

End Metric.

Lemma haversine_symmetric_witness :
  let dAB := haversineDistance smallAngle 51.5 (-0.125) 48.75 2.25 in
  let dBA := haversineDistance smallAngle 48.75 2.25 51.5 (-0.125) in
  dAB = dBA ∧ (is_nan dAB = false → (dAB =? dBA)%float = true).
Proof. apply haversine_symmetric. reflexivity. Defined.

Lemma haversine_identity_witness :
  haversineDistance smallAngle 51.5 (-0.125) 51.5 (-0.125) = 0%float.
Proof. apply haversine_identity; reflexivity. Defined.

(** C8 as stated fails. [2^1023] is finite, but times [Math.PI] it
    overflows: [Math.cos] receives [Infinity] and answers NaN, and the
    distance from the point to itself is NaN, within no epsilon of 0
    ([0x1.12e0be826d695p-30] is the double [1e-9]). *)
Lemma identity_overflow :
  is_finite 0x1p+1023 = true ∧ is_finite 0 = true ∧
  ∀ M : MathLibrary,
    Math_cos M infinity = nan →
    (∀ x, Math_atan2 M nan x = nan) →
    let d := haversineDistance M 0x1p+1023 0 0x1p+1023 0 in
    d = nan ∧ (abs d <=? 0x1.12e0be826d695p-30)%float = false.
Proof.
  split; [reflexivity|]. split; [reflexivity|].
  intros M Hcos Hatan.
  assert (haversineDistance M 0x1p+1023 0 0x1p+1023 0 = nan) as ->; [|done].
  unfold haversineDistance. cbv zeta.
  change (0x1p+1023 * Math_PI / 180)%float with infinity. rewrite Hcos.
  rewrite !mul_nan_l, add_nan_r. change (sqrt nan) with nan.
  rewrite Hatan. reflexivity.
Qed.

(** ** Further properties of [runPrimsAlgorithm] *)

Section Growth.
Context (start : Z).

Lemma endpointSet_app T1 T2 :
  endpointSet (T1 ++ T2) = endpointSet T1 ∪ endpointSet T2.
Proof.
  unfold endpointSet. rewrite flat_map_app. apply list_to_set_app_L.
Qed.

Lemma elem_of_endpointSet T a :
  a ∈ endpointSet T ↔ ∃ g, g ∈ T ∧ (a = from g ∨ a = to g).
Proof.
  unfold endpointSet. rewrite elem_of_list_to_set, list_elem_of_In, in_flat_map.
  split; intros (g & Hg & Ha); exists g; apply list_elem_of_In in Hg.
  - simpl in Ha. destruct Ha as [<-|[<-|[]]]; auto.
  - simpl. destruct Ha as [->| ->]; auto.
Qed.

(** Under the loop invariant, [visited] is what the accepted edges reach. *)
Lemma Inv_reached allEdges s :
  Inv allEdges start s → visited s = reached start (st_mst s).
Proof.
  intros I. apply set_eq. intros a. unfold reached.
  rewrite elem_of_union, elem_of_singleton, elem_of_endpointSet. split.
  - apply (inv_ends _ _ _ I).
  - intros [->|(g & Hg & [->| ->])]; [apply (inv_start _ _ _ I)|..];
      by destruct (inv_inside _ _ _ I g Hg).
Qed.

Lemma grown_step villages allEdges s s' :
  Inv allEdges start s → grown start (st_mst s) →
  loopStep villages allEdges s = Some s' → grown start (st_mst s').
Proof.
  intros I Hg (m & Hm & -> & _)%loopStep_Some pre g post Hsplit.
  cbn [acceptEdge st_mst] in Hsplit.
  destruct post as [|x post _] using rev_ind.
  - apply app_inj_tail in Hsplit as [<- <-].
    rewrite <- (Inv_reached _ _ I). by eapply findMinEdge_frontier.
  - rewrite app_comm_cons, app_assoc in Hsplit.
    apply app_inj_tail in Hsplit as [Hsplit _].
    by apply (Hg _ _ post).
Qed.

Lemma grown_prefix T1 T2 : grown start (T1 ++ T2) → grown start T1.
Proof.
  intros Hg pre g post ->. apply (Hg pre g (post ++ T2)).
  by rewrite <- !app_assoc.
Qed.

(** A grown list links everything it reaches to the start. *)
Lemma grown_connected T a :
  grown start T → a ∈ reached start T → connected T start a.
Proof.
  revert a. induction T as [|g T IH] using rev_ind; intros a Hg.
  - unfold reached, endpointSet. simpl. rewrite union_empty_r_L.
    intros ->%elem_of_singleton. apply rtc_refl.
  - pose proof (Hg T g [] eq_refl) as Hfr.
    specialize (λ b, IH b (grown_prefix _ _ Hg)).
    assert (∀ b, b ∈ reached start T → connected (T ++ [g]) start b) as Hold.
    { intros b Hb. eapply connected_mono; [|by apply IH].
      intros e He. apply elem_of_app. by left. }
    destruct (frontier_ends _ _ Hfr) as (u & w & Hu & Hw & Hj & _).
    assert (connected (T ++ [g]) start w) as Hnew.
    { eapply rtc_r; [by apply Hold|]. exists g.
      split; [apply elem_of_app; right; constructor|done]. }
    unfold reached. rewrite endpointSet_app, elem_of_union, elem_of_union.
    intros [Ha|[Ha|Ha]].
    + apply Hold. unfold reached. apply elem_of_union. by left.
    + apply Hold. unfold reached. apply elem_of_union. by right.
    + apply elem_of_endpointSet in Ha as (e & ->%list_elem_of_singleton & Ha).
      destruct Hj as [[Eu Ew]|[Ew Eu]], Ha as [->| ->];
        rewrite ?Eu, ?Ew; (by apply Hold) || exact Hnew.
Qed.
End Growth.

(** The edges a run returns are grown from the resolved start. *)
Lemma run_grown villages allEdges startNodeId v0 rest :
  villages = v0 :: rest →
  grown (startingPoint v0 startNodeId)
    (mst (runPrimsAlgorithm villages allEdges startNodeId)).
Proof.
  intros ->. cbn [runPrimsAlgorithm mst].
  set (start := startingPoint v0 startNodeId).
  apply (primLoop_invariant (v0 :: rest) allEdges
           (λ s, Inv allEdges start s ∧ grown start (st_mst s))).
  - intros s1 s2 [I Hg] Hstep.
    split; [by eapply Inv_step|by eapply grown_step].
  - split; [apply Inv_initial|]. intros [|??] ???; discriminate.
Qed.

(** On a connected candidate graph the run returns a spanning tree. *)
Lemma run_spanning villages allEdges startNodeId :
  (1 ≤ length villages)%nat →
  NoDup (ids villages) →
  connectedGraph villages allEdges →
  (∀ i, startNodeId = Some i → i ∈ ids villages) →
  spanningTree villages allEdges
    (mst (runPrimsAlgorithm villages allEdges startNodeId)).
Proof.
  intros Hn Hdistinct Hgraph Hstart.
  destruct villages as [|v0 rest] eqn:E; [simpl in Hn; lia|]. rewrite <- E in *.
  destruct (run_cons villages allEdges v0 rest startNodeId E)
    as (-> & I & Hnone).
  pose proof (start_resolved _ _ _ _ E Hstart) as Hin.
  cbn [mst]. split_and!.
  - apply NoDup_submseteq;
      [apply (inv_nodup _ _ _ I)|apply (inv_sub _ _ _ I)].
  - pose proof (final_length _ _ _ Hdistinct Hgraph Hin _ I Hnone). lia.
  - intros a b Ha Hb.
    pose proof (final_visited _ _ _ Hdistinct Hgraph Hin _ I Hnone) as Hvis.
    eapply connected_trans; [apply connected_sym|];
      apply (inv_conn _ _ _ I); rewrite Hvis; by apply elem_of_list_to_set.
Qed.

(** On a connected candidate graph whose weights are numbers, no spanning
    tree weighs less than what the run returns. *)
Lemma run_minimal villages allEdges startNodeId T :
  (1 ≤ length villages)%nat →
  NoDup (ids villages) →
  connectedGraph villages allEdges →
  finiteWeights allEdges →
  (∀ i, startNodeId = Some i → i ∈ ids villages) →
  spanningTree villages allEdges T →
  totalWeight (mst (runPrimsAlgorithm villages allEdges startNodeId))
  <= totalWeight T.
Proof.
  intros Hn Hdistinct Hgraph Hfin Hstart HT.
  destruct villages as [|v0 rest] eqn:E; [simpl in Hn; lia|]. rewrite <- E in *.
  destruct (run_cons villages allEdges v0 rest startNodeId E) as (-> & _).
  cbn [mst].
  eapply final_minimal; eauto using start_resolved.
Qed.

(** A candidate list over the points that links each of them to one root
    is connected. *)
Lemma rooted_connected villages allEdges root :
  (∀ g, g ∈ allEdges → from g ∈ ids villages ∧ to g ∈ ids villages) →
  (∀ a, a ∈ ids villages → connected allEdges root a) →
  connectedGraph villages allEdges.
Proof.
  intros Hends Hroot. split; [done|]. intros a b Ha Hb.
  eapply connected_trans; [apply connected_sym|]; by apply Hroot.
Qed.

(** Three points in a row: 1 - 2 - 3, with no edge from 1 to 3. *)
Definition rowVillages : list Village :=
  [village 1 0; village 2 1; village 3 2].
Definition rowEdges : list Edge := [edge 2 3 1; edge 1 2 5].

Lemma rowEdges_connected : connectedGraph rowVillages rowEdges.
Proof.
  apply (rooted_connected _ _ 1).
  - intros g Hg. apply list_elem_of_In in Hg. simpl in Hg.
    destruct Hg as [<-|[<-|[]]]; split; apply list_elem_of_In; simpl; auto.
  - assert (adjacent rowEdges 1 2) as H12.
    { exists (edge 1 2 5). split; [apply list_elem_of_In; simpl; auto|by left]. }
    assert (adjacent rowEdges 2 3) as H23.
    { exists (edge 2 3 1). split; [apply list_elem_of_In; simpl; auto|by left]. }
    intros a Ha. apply list_elem_of_In in Ha. simpl in Ha.
    destruct Ha as [<-|[<-|[<-|[]]]].
    + apply rtc_refl.
    + by apply rtc_once.
    + by apply (rtc_l _ _ 2), rtc_once.
Qed.

(** The two arrays of a run, as one list. *)
Lemma sequence_mst villages allEdges startNodeId :
  sequence (runPrimsAlgorithm villages allEdges startNodeId) =
  mst (runPrimsAlgorithm villages allEdges startNodeId).
Proof.
  destruct villages as [|v0 rest] eqn:E; [done|]. rewrite <- E.
  destruct (run_cons villages allEdges v0 rest startNodeId E)
    as (-> & I & _).
  apply (inv_same _ _ _ I).
Qed.

(** X1. On every input, the edges of [mst] are candidate edges, each taken
    at most as often as the candidate list holds it, and none twice. *)
Theorem mst_from_candidates villages allEdges startNodeId :
  let tree := mst (runPrimsAlgorithm villages allEdges startNodeId) in
  tree ⊆+ allEdges ∧ NoDup tree.
Proof.
  destruct villages as [|v0 rest] eqn:E.
  - split; [apply submseteq_nil_l|constructor].
  - rewrite <- E.
    destruct (run_cons villages allEdges v0 rest startNodeId E)
      as (-> & I & _).
    cbn [mst]. split; [|apply (inv_nodup _ _ _ I)].
    apply NoDup_submseteq;
      [apply (inv_nodup _ _ _ I)|apply (inv_sub _ _ _ I)].
Qed.

(** X2. Every edge of [sequence] has exactly one endpoint among the start
    and the endpoints of the edges before it: it attaches one new
    identifier to what is already linked. *)
Theorem accepted_edge_attaches villages allEdges startNodeId v0 rest
  pre g post :
  villages = v0 :: rest →
  sequence (runPrimsAlgorithm villages allEdges startNodeId)
    = pre ++ g :: post →
  isFrontier (reached (startingPoint v0 startNodeId) pre) g = true.
Proof.
  intros E Hsplit. rewrite sequence_mst in Hsplit.
  by apply (run_grown villages allEdges startNodeId v0 rest E pre g post).
Qed.

Lemma accepted_edge_attaches_witness :
  sequence (runPrimsAlgorithm rowVillages rowEdges (Some 1))
    = [edge 1 2 5] ++ edge 2 3 1 :: [] ∧
  isFrontier (reached (startingPoint (village 1 0) (Some 1)) [edge 1 2 5])
    (edge 2 3 1) = true.
Proof.
  split; [vm_compute; reflexivity|].
  apply (accepted_edge_attaches rowVillages rowEdges (Some 1)
           (village 1 0) [village 2 1; village 3 2] [edge 1 2 5] _ []).
  - reflexivity.
  - vm_compute. reflexivity.
Defined.

(** X3. What an animation step shows is linked to the start: both endpoints
    of every edge among the first [k] edges of [sequence] are joined to the
    start by a path of those [k] edges. *)
Theorem prefix_connected villages allEdges startNodeId v0 rest k g :
  villages = v0 :: rest →
  let shown :=
    take k (sequence (runPrimsAlgorithm villages allEdges startNodeId)) in
  g ∈ shown →
  connected shown (startingPoint v0 startNodeId) (from g) ∧
  connected shown (startingPoint v0 startNodeId) (to g).
Proof.
  intros E shown Hg.
  assert (grown (startingPoint v0 startNodeId) shown) as Hgrown.
  { apply (grown_prefix _ shown
             (drop k (sequence
                        (runPrimsAlgorithm villages allEdges startNodeId)))).
    unfold shown. rewrite take_drop, sequence_mst. by eapply run_grown. }
  split; (apply grown_connected; [exact Hgrown|]); unfold reached;
    apply elem_of_union; right; apply elem_of_endpointSet; eauto.
Qed.

Lemma prefix_connected_witness :
  let shown :=
    take 1 (sequence (runPrimsAlgorithm rowVillages rowEdges (Some 3))) in
  edge 2 3 1 ∈ shown ∧
  connected shown (startingPoint (village 1 0) (Some 3)) (from (edge 2 3 1)) ∧
  connected shown (startingPoint (village 1 0) (Some 3)) (to (edge 2 3 1)).
Proof.
  assert (edge 2 3 1 ∈
            take 1 (sequence (runPrimsAlgorithm rowVillages rowEdges (Some 3))))
    as Hin by (vm_compute; constructor).
  split; [exact Hin|].
  exact (prefix_connected rowVillages rowEdges (Some 3) (village 1 0)
           [village 2 1; village 3 2] 1 (edge 2 3 1) eq_refl Hin).
Defined.

(** X4. When a run returns fewer than [n - 1] edges it was left by its
    [break], and [mst] then spans everything the candidate list links to the
    start: an identifier is joined to the start by candidate edges exactly
    when it is by edges of [mst]. *)
Theorem component_spanned villages allEdges startNodeId v0 rest a :
  villages = v0 :: rest →
  let tree := mst (runPrimsAlgorithm villages allEdges startNodeId) in
  (S (length tree) < length villages)%nat →
  connected allEdges (startingPoint v0 startNodeId) a ↔
  connected tree (startingPoint v0 startNodeId) a.
Proof.
  intros E tree Hshort. unfold tree in *. clear tree.
  destruct (run_cons villages allEdges v0 rest startNodeId E)
    as (Hrun & I & Hnone).
  rewrite Hrun in *. cbn [mst] in *. set (s := primLoop _ _ _) in *.
  apply loopStep_None in Hnone as [Hfull|Hnone];
    [rewrite (inv_size _ _ _ I) in Hfull; lia|].
  split.
  - intros Hpath. apply (inv_conn _ _ _ I).
    destruct (decide (a ∈ visited s)) as [|Hout]; [done|exfalso].
    destruct (last_crossing allEdges (visited s) _ a Hpath
                (inv_start _ _ _ I) Hout)
      as (x & y & Hx & Hy & (g & Hg & Hj) & _).
    pose proof (joins_frontier _ _ _ _ Hj Hx Hy) as Hfr.
    by rewrite (proj1 (findMinEdge_None _ _) Hnone g Hg) in Hfr.
  - apply connected_mono, (inv_sub _ _ _ I).
Qed.

Lemma component_spanned_witness :
  let tree :=
    mst (runPrimsAlgorithm rowVillages [edge 1 2 5] (Some 1)) in
  (S (length tree) < length rowVillages)%nat ∧
  (connected [edge 1 2 5] (startingPoint (village 1 0) (Some 1)) 2 ↔
   connected tree (startingPoint (village 1 0) (Some 1)) 2).
Proof.
  split; [vm_compute; lia|].
  apply (component_spanned rowVillages [edge 1 2 5] (Some 1) (village 1 0)
           [village 2 1; village 3 2] 2 eq_refl).
  vm_compute. lia.
Defined.

(** X5. A complete candidate list is not needed: when the candidate list
    only mentions points and links every two of them by some path, [mst] is
    a spanning tree of minimum total weight. *)
Theorem connected_candidates_suffice villages allEdges startNodeId :
  (1 ≤ length villages)%nat →
  NoDup (ids villages) →
  connectedGraph villages allEdges →
  finiteWeights allEdges →
  (∀ i, startNodeId = Some i → i ∈ ids villages) →
  let tree := mst (runPrimsAlgorithm villages allEdges startNodeId) in
  spanningTree villages allEdges tree ∧
  ∀ T, spanningTree villages allEdges T → totalWeight tree <= totalWeight T.
Proof.
  intros Hn Hdistinct Hgraph Hfin Hstart tree.
  split; [by apply run_spanning|].
  intros T HT. by apply run_minimal.
Qed.

Lemma connected_candidates_suffice_witness :
  let tree := mst (runPrimsAlgorithm rowVillages rowEdges (Some 1)) in
  spanningTree rowVillages rowEdges tree ∧
  ∀ T, spanningTree rowVillages rowEdges T → totalWeight tree <= totalWeight T.
Proof.
  apply connected_candidates_suffice.
  - simpl. lia.
  - apply (bool_decide_unpack _). vm_compute. reflexivity.
  - apply rowEdges_connected.
  - repeat constructor.
  - intros i [= <-]. apply (bool_decide_unpack _). vm_compute. reflexivity.
Defined.

(** X6. With at least two points, distinct identifiers and a connected
    candidate list, every point is an endpoint of some edge of [sequence],
    the start included. *)
Theorem every_point_covered villages allEdges startNodeId i :
  (2 ≤ length villages)%nat →
  NoDup (ids villages) →
  connectedGraph villages allEdges →
  (∀ j, startNodeId = Some j → j ∈ ids villages) →
  i ∈ ids villages →
  ∃ g, g ∈ sequence (runPrimsAlgorithm villages allEdges startNodeId) ∧
       (from g = i ∨ to g = i).
Proof.
  intros Hn Hdistinct Hgraph Hstart Hi. rewrite sequence_mst.
  destruct villages as [|v0 rest] eqn:E; [simpl in Hn; lia|]. rewrite <- E in *.
  pose proof (run_grown villages allEdges startNodeId v0 rest E) as Hgrown.
  destruct (run_cons villages allEdges v0 rest startNodeId E)
    as (Hrun & I & Hnone).
  rewrite Hrun in *. cbn [mst] in *. set (s := primLoop _ _ _) in *.
  pose proof (start_resolved _ _ _ _ E Hstart) as Hin.
  pose proof (final_length _ _ _ Hdistinct Hgraph Hin _ I Hnone) as Hlen.
  assert (i ∈ visited s) as Hvis.
  { rewrite (final_visited _ _ _ Hdistinct Hgraph Hin _ I Hnone).
    by apply elem_of_list_to_set. }
  destruct (inv_ends _ _ _ I _ Hvis) as [->|(g & Hg & Hig)].
  - destruct (st_mst s) as [|g0 post] eqn:Emst; [simpl in Hlen; lia|].
    pose proof (Hgrown [] g0 post eq_refl) as Hfr.
    destruct (frontier_ends _ _ Hfr) as (u & w & Hu & _ & Hj & _).
    unfold reached, endpointSet in Hu. simpl in Hu.
    rewrite union_empty_r_L in Hu. apply elem_of_singleton in Hu as ->.
    exists g0. split; [constructor|]. destruct Hj as [[? _]|[_ ?]]; auto.
  - exists g. split; [done|]. destruct Hig; auto.
Qed.

Lemma every_point_covered_witness :
  ∃ g, g ∈ sequence (runPrimsAlgorithm rowVillages rowEdges (Some 2)) ∧
       (from g = 2 ∨ to g = 2).
Proof.
  apply every_point_covered.
  - simpl. lia.
  - apply (bool_decide_unpack _). vm_compute. reflexivity.
  - apply rowEdges_connected.
  - intros j [= <-]. apply (bool_decide_unpack _). vm_compute. reflexivity.
  - apply (bool_decide_unpack _). vm_compute. reflexivity.
Defined.

Lemma connectedGraph_perm villages allEdges allEdges' :
  allEdges ≡ₚ allEdges' →
  connectedGraph villages allEdges → connectedGraph villages allEdges'.
Proof.
  intros Hp [Hends Hconn]. split.
  - intros g Hg. apply Hends. by rewrite Hp.
  - intros a b Ha Hb. eapply connected_mono; [|by apply Hconn].
    intros g Hg. by rewrite <- Hp.
Qed.

Lemma spanningTree_perm villages allEdges allEdges' T :
  allEdges ≡ₚ allEdges' →
  spanningTree villages allEdges T → spanningTree villages allEdges' T.
Proof. intros Hp (Hsub & Hlen & Hconn). split_and!; [by rewrite <- Hp|done..]. Qed.

(** X7. The total weight of [mst] depends neither on the start nor on the
    order of the candidate list: two runs over the same points, from any two
    of them and over two orderings of the same candidates, return trees of
    equal total weight. *)
Theorem total_weight_independent villages allEdges allEdges' start start' :
  NoDup (ids villages) →
  connectedGraph villages allEdges →
  finiteWeights allEdges →
  allEdges ≡ₚ allEdges' →
  start ∈ ids villages → start' ∈ ids villages →
  totalWeight (mst (runPrimsAlgorithm villages allEdges (Some start))) =
  totalWeight (mst (runPrimsAlgorithm villages allEdges' (Some start'))).
Proof.
  intros Hdistinct Hgraph Hfin Hp Hs Hs'.
  assert (1 ≤ length villages)%nat as Hn.
  { destruct villages; [by apply elem_of_nil in Hs|simpl; lia]. }
  pose proof (connectedGraph_perm _ _ _ Hp Hgraph) as Hgraph'.
  assert (finiteWeights allEdges') as Hfin'
    by (unfold finiteWeights; by rewrite <- Hp).
  assert (∀ j i : Z, j ∈ ids villages → Some j = Some i → i ∈ ids villages)
    as Hres by (by intros j i Hj [= <-]).
  apply Z.le_antisymm.
  - apply run_minimal; eauto.
    apply (spanningTree_perm _ allEdges'); [done|].
    apply run_spanning; eauto.
  - apply run_minimal; eauto.
    apply (spanningTree_perm _ allEdges); [done|].
    apply run_spanning; eauto.
Qed.

Lemma total_weight_independent_witness :
  totalWeight (mst (runPrimsAlgorithm rowVillages rowEdges (Some 1))) =
  totalWeight (mst (runPrimsAlgorithm rowVillages (rev rowEdges) (Some 3))).
Proof.
  apply total_weight_independent.
  - apply (bool_decide_unpack _). vm_compute. reflexivity.
  - apply rowEdges_connected.
  - repeat constructor.
  - apply Permutation_rev.
  - apply (bool_decide_unpack _). vm_compute. reflexivity.
  - apply (bool_decide_unpack _). vm_compute. reflexivity.
Defined.

(** *** The order of the visits *)

Lemma visit_fold_snoc start accepted g :
  fold_left visitStep (accepted ++ [g]) ({[ start ]}, [start]) =
  visitStep (fold_left visitStep accepted ({[ start ]}, [start])) g.
Proof. by rewrite fold_left_app. Qed.

Lemma visit_fold_visited start accepted :
  (fold_left visitStep accepted ({[ start ]}, [start])).1 =
  visitedAfter start accepted.
Proof.
  induction accepted as [|g l IH] using rev_ind; [done|].
  rewrite visit_fold_snoc, visitedAfter_snoc, <- IH. done.
Qed.

Lemma visitOrder_snoc start accepted g :
  visitOrder start (accepted ++ [g]) =
  visitOrder start accepted ++
    [if bool_decide (from g ∈ visitedAfter start accepted)
     then to g else from g].
Proof.
  unfold visitOrder. rewrite visit_fold_snoc. unfold visitStep at 1.
  cbn [snd]. by rewrite visit_fold_visited.
Qed.

(** The order of the visits lists [visited], without repetition. *)
Lemma run_visits villages allEdges startNodeId v0 rest :
  villages = v0 :: rest →
  let start := startingPoint v0 startNodeId in
  let s := primLoop villages allEdges (initialState start) in
  visited s = list_to_set (visitOrder start (st_mst s)) ∧
  NoDup (visitOrder start (st_mst s)).
Proof.
  intros -> start.
  apply (primLoop_invariant (v0 :: rest) allEdges
           (λ s, Inv allEdges start s ∧
                 visited s = list_to_set (visitOrder start (st_mst s)) ∧
                 NoDup (visitOrder start (st_mst s)))).
  - intros s1 s2 (I & Hset & Hnd) Hstep.
    split; [by eapply Inv_step|].
    destruct (loopStep_Some _ _ _ _ Hstep) as (m & Hm & -> & _).
    destruct (frontier_ends _ _ (findMinEdge_frontier _ _ _ Hm))
      as (u & w & _ & Hw & _ & Ew).
    cbn [acceptEdge visited st_mst].
    rewrite visitOrder_snoc, <- (inv_replay _ _ _ I), <- Ew. split.
    + rewrite list_to_set_app_L, <- Hset. simpl.
      rewrite union_empty_r_L. apply union_comm_L.
    + apply NoDup_app. split_and!; [done| |apply NoDup_singleton].
      intros a Ha ->%list_elem_of_singleton. apply Hw. rewrite Hset.
      by apply elem_of_list_to_set.
  - split; [apply Inv_initial|]. split.
    + cbn. by rewrite union_empty_r_L.
    + apply NoDup_singleton.
Qed.

(** X8. No identifier is visited twice, on any input: the start and the
    endpoints the accepted edges add to [visited], in the order they are
    added, are pairwise distinct. *)
Theorem visit_order_distinct allEdges startNodeId v0 rest :
  NoDup (visitOrder (startingPoint v0 startNodeId)
           (sequence (runPrimsAlgorithm (v0 :: rest) allEdges startNodeId))).
Proof.
  rewrite sequence_mst. cbn [runPrimsAlgorithm mst].
  apply (run_visits (v0 :: rest) allEdges startNodeId v0 rest eq_refl).
Qed.

(** X9. On a connected candidate graph over points of distinct
    identifiers, the order of the visits is a rearrangement of the point
    identifiers: every point is visited, once. *)
Theorem visits_each_point_once villages allEdges startNodeId v0 rest :
  villages = v0 :: rest →
  NoDup (ids villages) →
  connectedGraph villages allEdges →
  (∀ i, startNodeId = Some i → i ∈ ids villages) →
  visitOrder (startingPoint v0 startNodeId)
    (sequence (runPrimsAlgorithm villages allEdges startNodeId))
  ≡ₚ ids villages.
Proof.
  intros E Hdistinct Hgraph Hstart. rewrite sequence_mst.
  destruct (run_visits villages allEdges startNodeId v0 rest E) as [Hset Hnd].
  destruct (run_cons villages allEdges v0 rest startNodeId E)
    as (-> & I & Hnone).
  cbn [mst].
  pose proof (final_visited _ _ _ Hdistinct Hgraph
                (start_resolved _ _ _ _ E Hstart) _ I Hnone) as Hvis.
  apply NoDup_Permutation; [done..|]. intros a.
  rewrite <- (elem_of_list_to_set (C := gset Z) a (visitOrder _ _)), <- Hset.
  rewrite Hvis. apply elem_of_list_to_set.
Qed.

Lemma visits_each_point_once_witness :
  visitOrder (startingPoint (village 1 0) (Some 3))
    (sequence (runPrimsAlgorithm rowVillages rowEdges (Some 3)))
  ≡ₚ ids rowVillages.
Proof.
  apply (visits_each_point_once rowVillages rowEdges (Some 3) (village 1 0)
           [village 2 1; village 3 2]).
  - reflexivity.
  - apply (bool_decide_unpack _). vm_compute. reflexivity.
  - apply rowEdges_connected.
  - intros i [= <-]. apply (bool_decide_unpack _). vm_compute. reflexivity.
Defined.

(** ** Further properties of the caller *)

(** Where a candidate edge comes from: two villages, the first earlier in
    the list than the second, and their distance, stored twice. *)
Lemma allPossibleEdges_built M villages g :
  g ∈ allPossibleEdges M villages →
  ∃ before v1 between v2 after,
    villages = before ++ v1 :: between ++ v2 :: after ∧
    g = {| from := id v1; to := id v2;
           weight := haversineDistance M (lat v1) (lon v1) (lat v2) (lon v2);
           distance :=
             Some (haversineDistance M (lat v1) (lon v1) (lat v2) (lon v2)) |}.
Proof.
  induction villages as [|v rest IH]; simpl; [by intros ?%elem_of_nil|].
  intros [Hg|Hg]%elem_of_app.
  - apply list_elem_of_fmap in Hg as (v2 & -> & Hv2).
    apply list_elem_of_split in Hv2 as (l1 & l2 & ->).
    by exists [], v, l1, v2, l2.
  - destruct (IH Hg) as (l0 & v1 & l1 & v2 & l2 & -> & ->).
    by exists (v :: l0), v1, l1, v2, l2.
Qed.

Lemma allPossibleEdges_length M villages :
  (2 * length (allPossibleEdges M villages) =
   length villages * (length villages - 1))%nat.
Proof.
  induction villages as [|v rest IH]; [done|].
  cbn [allPossibleEdges]. rewrite length_app, length_map. simpl length.
  nia.
Qed.

(** X10. The candidate list holds [n (n - 1) / 2] edges, and each is built
    from two villages, the first standing earlier in the list: it runs from
    the identifier of the first to that of the second, and its [weight] and
    its [distance] are both their haversine distance. *)
Theorem candidate_edges_shape M villages :
  (2 * length (allPossibleEdges M villages) =
   length villages * (length villages - 1))%nat ∧
  ∀ g, g ∈ allPossibleEdges M villages →
    ∃ before v1 between v2 after,
      villages = before ++ v1 :: between ++ v2 :: after ∧
      from g = id v1 ∧ to g = id v2 ∧
      weight g = haversineDistance M (lat v1) (lon v1) (lat v2) (lon v2) ∧
      distance g = Some (weight g).
Proof.
  split; [apply allPossibleEdges_length|].
  intros g (l0 & v1 & l1 & v2 & l2 & E & ->)%allPossibleEdges_built.
  exists l0, v1, l1, v2, l2. by rewrite E.
Qed.

(** Distinct identifiers make distinct positions. *)
Lemma ids_split_unique l0 v1 l1 v2 l2 l0' v1' l1' v2' l2' :
  NoDup (ids (l0 ++ v1 :: l1 ++ v2 :: l2)) →
  l0 ++ v1 :: l1 ++ v2 :: l2 = l0' ++ v1' :: l1' ++ v2' :: l2' →
  (id v1 = id v1' ∧ id v2 = id v2') ∨ (id v1 = id v2' ∧ id v2 = id v1') →
  v1 = v1' ∧ v2 = v2'.
Proof.
  intros Hnd E Hids.
  assert (∀ (l : list Village) a b i j,
            NoDup (ids l) → l !! i = Some a → l !! j = Some b →
            id a = id b → i = j) as Hpos.
  { intros l a b i j Hl Ha Hb Hab.
    apply (NoDup_lookup (ids l) i j (id a)); [done|..];
      unfold ids; rewrite list_lookup_fmap; [by rewrite Ha|by rewrite Hb, Hab]. }
  set (l := l0 ++ v1 :: l1 ++ v2 :: l2) in *.
  assert (l !! length l0 = Some v1) as P1
    by (unfold l; by rewrite list_lookup_middle).
  assert (l !! (length l0 + S (length l1))%nat = Some v2) as P2.
  { unfold l. rewrite lookup_app_r by lia.
    replace (length l0 + S (length l1) - length l0)%nat
      with (S (length l1)) by lia.
    simpl. by rewrite list_lookup_middle. }
  assert (l !! length l0' = Some v1') as P1'
    by (rewrite E; by rewrite list_lookup_middle).
  assert (l !! (length l0' + S (length l1'))%nat = Some v2') as P2'.
  { rewrite E. rewrite lookup_app_r by lia.
    replace (length l0' + S (length l1') - length l0')%nat
      with (S (length l1')) by lia.
    simpl. by rewrite list_lookup_middle. }
  destruct Hids as [[H1 H2]|[H1 H2]].
  - pose proof (Hpos _ _ _ _ _ Hnd P1 P1' H1) as E1.
    pose proof (Hpos _ _ _ _ _ Hnd P2 P2' H2) as E2.
    rewrite E1 in P1. rewrite E2 in P2. split; congruence.
  - pose proof (Hpos _ _ _ _ _ Hnd P1 P2' H1).
    pose proof (Hpos _ _ _ _ _ Hnd P2 P1' H2). lia.
Qed.

(** Two candidate edges between the same two identifiers are one edge. *)
Lemma candidate_same_pair M villages g1 g2 a b :
  NoDup (ids villages) →
  g1 ∈ allPossibleEdges M villages → g2 ∈ allPossibleEdges M villages →
  joins g1 a b → joins g2 a b →
  g1 = g2.
Proof.
  intros Hnd (l0 & v1 & l1 & v2 & l2 & E & ->)%allPossibleEdges_built
    (l0' & v1' & l1' & v2' & l2' & E' & ->)%allPossibleEdges_built.
  unfold joins. cbn [from to]. intros J1 J2. rewrite E in Hnd, E'.
  destruct (ids_split_unique _ _ _ _ _ _ _ _ _ _ Hnd E') as [<- <-]; [|done].
  destruct J1 as [[??]|[??]], J2 as [[??]|[??]]; [left|right|right|left];
    split; congruence.
Qed.

(** X11. Over villages of distinct identifiers the candidate list has no
    loop and no repeated pair: an edge never joins an identifier to itself,
    and two candidate edges that join the same two identifiers, in either
    direction, are the same edge. *)
Theorem candidate_pairs_unique M villages g1 g2 a b :
  NoDup (ids villages) →
  g1 ∈ allPossibleEdges M villages → g2 ∈ allPossibleEdges M villages →
  joins g1 a b → joins g2 a b →
  a ≠ b ∧ g1 = g2.
Proof.
  intros Hnd (l0 & v1 & l1 & v2 & l2 & E & ->)%allPossibleEdges_built
    (l0' & v1' & l1' & v2' & l2' & E' & ->)%allPossibleEdges_built.
  unfold joins. cbn [from to]. intros J1 J2. rewrite E in Hnd, E'.
  split.
  - intros <-.
    assert (id v1 = id v2) as Hsame by (destruct J1 as [[??]|[??]]; congruence).
    destruct (ids_split_unique l0 v1 l1 v2 l2 l0 v1 l1 v2 l2 Hnd eq_refl)
      as [_ _]; [by left|].
    assert (length l0 = (length l0 + S (length l1))%nat); [|lia].
    apply (NoDup_lookup (ids (l0 ++ v1 :: l1 ++ v2 :: l2)) _ _ (id v1));
      [done|..]; unfold ids; rewrite list_lookup_fmap.
    + by rewrite list_lookup_middle.
    + rewrite lookup_app_r by lia.
      replace (length l0 + S (length l1) - length l0)%nat
        with (S (length l1)) by lia.
      simpl. rewrite list_lookup_middle by done. simpl. by rewrite Hsame.
  - destruct (ids_split_unique _ _ _ _ _ _ _ _ _ _ Hnd E') as [<- <-]; [|done].
    destruct J1 as [[??]|[??]], J2 as [[??]|[??]]; [left|right|right|left];
      split; congruence.
Qed.

Lemma candidate_pairs_unique_witness :
  let villages := [village 1 0; village 2 1; village 3 2] in
  let g := {| from := 1; to := 3;
              weight := haversineDistance smallAngle 0 0 0 2;
              distance := Some (haversineDistance smallAngle 0 0 0 2) |} in
  3 ≠ 1 ∧ g = g.
Proof.
  apply (candidate_pairs_unique smallAngle
           [village 1 0; village 2 1; village 3 2]).
  - apply (bool_decide_unpack _). vm_compute. reflexivity.
  - apply list_elem_of_In. simpl. auto.
  - apply list_elem_of_In. simpl. auto.
  - by right.
  - by right.
Defined.

(** What a run returns is taken from the candidate list. *)
Lemma run_sub villages allEdges startNodeId g :
  g ∈ sequence (runPrimsAlgorithm villages allEdges startNodeId) →
  g ∈ allEdges.
Proof.
  rewrite sequence_mst.
  destruct villages as [|v0 rest] eqn:E; [by intros ?%elem_of_nil|].
  rewrite <- E.
  destruct (run_cons villages allEdges v0 rest startNodeId E)
    as (-> & I & _).
  apply (inv_sub _ _ _ I).
Qed.

(** The sequence either [App] animates holds candidate edges only. *)
Lemma animationSequence_sub M villages startNodeId g :
  g ∈ animationSequence M villages startNodeId →
  g ∈ allPossibleEdges M villages.
Proof.
  unfold animationSequence.
  destruct (_ || _); [by intros ?%elem_of_nil|apply run_sub].
Qed.

Lemma mstAndSequence_sub M startNode otherNodes g :
  g ∈ (mstAndSequence M startNode otherNodes).2 →
  g ∈ allPossibleEdges M (villagesOf startNode otherNodes).
Proof.
  unfold mstAndSequence. destruct startNode as [s|]; [|by intros ?%elem_of_nil].
  destruct (_ <? _)%nat; [by intros ?%elem_of_nil|apply run_sub].
Qed.

(** [find] succeeds on the identifier of a village of the list. *)
Lemma findVillage_Some villages i :
  i ∈ ids villages →
  ∃ v, findVillage villages i = Some v ∧ v ∈ villages ∧ id v = i.
Proof.
  intros (w & -> & Hw)%list_elem_of_fmap. unfold findVillage.
  destruct (find _ villages) as [v|] eqn:Hfind.
  - apply find_some in Hfind as [Hin Hid%bool_decide_eq_true_1].
    exists v. by rewrite list_elem_of_In.
  - apply list_elem_of_In in Hw.
    pose proof (find_none _ _ Hfind w Hw) as Hno.
    by apply bool_decide_eq_false_1 in Hno.
Qed.

Lemma polyline_of_candidate M villages g :
  g ∈ allPossibleEdges M villages →
  ∃ fromVillage toVillage,
    fromVillage ∈ villages ∧ toVillage ∈ villages ∧
    id fromVillage = from g ∧ id toVillage = to g ∧
    polylinePositions villages g =
      Some ((lat fromVillage, lon fromVillage),
            (lat toVillage, lon toVillage)).
Proof.
  intros [Hf Ht]%allPossibleEdges_elem.
  destruct (findVillage_Some _ _ Hf) as (f & Ef & ? & ?).
  destruct (findVillage_Some _ _ Ht) as (t & Et & ? & ?).
  exists f, t. unfold polylinePositions. by rewrite Ef, Et.
Qed.

(** X12. Drawing never misses a village: at every animation step of either
    [App], for each edge to draw both [villages.find] calls return a village
    of the list with the edge's identifier, so the polyline gets its two
    positions. *)
Theorem polylines_resolve M villages startNodeId startNode otherNodes
  animationStep :
  (∀ g, g ∈ edgesToDraw (animationSequence M villages startNodeId)
              animationStep →
     ∃ fromVillage toVillage,
       fromVillage ∈ villages ∧ toVillage ∈ villages ∧
       id fromVillage = from g ∧ id toVillage = to g ∧
       polylinePositions villages g =
         Some ((lat fromVillage, lon fromVillage),
               (lat toVillage, lon toVillage))) ∧
  (∀ g, g ∈ edgesToDraw (mstAndSequence M startNode otherNodes).2
              animationStep →
     ∃ fromVillage toVillage,
       fromVillage ∈ villagesOf startNode otherNodes ∧
       toVillage ∈ villagesOf startNode otherNodes ∧
       id fromVillage = from g ∧ id toVillage = to g ∧
       polylinePositions (villagesOf startNode otherNodes) g =
         Some ((lat fromVillage, lon fromVillage),
               (lat toVillage, lon toVillage))).
Proof.
  unfold edgesToDraw. split; intros g Hg%subseteq_take.
  - by eapply polyline_of_candidate, animationSequence_sub.
  - by eapply polyline_of_candidate, mstAndSequence_sub.
Qed.

(** When the first scan finds no frontier edge, the result is empty. *)
Lemma run_no_frontier villages allEdges start :
  findMinEdge {[ start ]} allEdges = None →
  runPrimsAlgorithm villages allEdges (Some start) = emptyResult.
Proof.
  intros Hscan. destruct villages as [|v0 rest]; [done|].
  unfold runPrimsAlgorithm.
  change (startingPoint v0 (Some start)) with start.
  rewrite primLoop_step. unfold loopStep. cbn [initialState visited].
  rewrite Hscan. by case_bool_decide.
Qed.

Lemma animation_length_core M villages start :
  (2 ≤ length villages)%nat →
  NoDup (ids villages) →
  start ≠ 0 →
  start ∈ ids villages →
  S (length (animationSequence M villages (Some start))) = length villages.
Proof.
  intros Hn Hnd Hnz Hin. unfold animationSequence.
  rewrite (proj2 (Nat.ltb_ge _ _) Hn). cbn [falsyId orb].
  rewrite (proj2 (Z.eqb_neq _ _) Hnz), sequence_mst.
  destruct (run_spanning villages (allPossibleEdges M villages) (Some start))
    as (_ & Hlen & _); [lia|done|..|lia].
  - apply complete_connected, allPossibleEdges_complete.
  - by intros i [= <-].
Qed.

(** X13. The first [App] animates [n - 1] edges when there are at least two
    villages, of distinct identifiers, and the start is one of them and is
    not [0]. *)
Theorem animation_length M villages start :
  (2 ≤ length villages)%nat →
  NoDup (ids villages) →
  start ≠ 0 →
  start ∈ ids villages →
  S (length (animationSequence M villages (Some start))) = length villages.
Proof. apply animation_length_core. Qed.

Lemma animation_length_witness :
  S (length (animationSequence smallAngle rowVillages (Some 2)))
  = length rowVillages.
Proof.
  apply animation_length.
  - simpl. lia.
  - apply (bool_decide_unpack _). vm_compute. reflexivity.
  - done.
  - apply (bool_decide_unpack _). vm_compute. reflexivity.
Defined.

(** X14. With villages of distinct identifiers, the first [App] has nothing
    to animate in exactly four cases: fewer than two villages, no start, the
    start [0], or a start that is the identifier of no village. *)
Theorem animation_empty_iff M villages startNodeId :
  NoDup (ids villages) →
  animationSequence M villages startNodeId = [] ↔
  (length villages < 2)%nat ∨ startNodeId = None ∨ startNodeId = Some 0 ∨
  ∃ i, startNodeId = Some i ∧ i ∉ ids villages.
Proof.
  intros Hnd. split.
  - intros Hempty.
    destruct (Nat.lt_ge_cases (length villages) 2) as [|Hn]; [by left|].
    destruct startNodeId as [i|]; [|by right; left].
    destruct (decide (i = 0)) as [->|Hnz]; [by right; right; left|].
    destruct (decide (i ∈ ids villages)) as [Hin|Hout]; [|by eauto 6].
    pose proof (animation_length_core M villages i Hn Hnd Hnz Hin) as Hlen.
    rewrite Hempty in Hlen. simpl in Hlen. lia.
  - unfold animationSequence. intros [Hn|[->|[->|(i & -> & Hout)]]].
    + by rewrite (proj2 (Nat.ltb_lt _ _) Hn).
    + by rewrite orb_true_r.
    + by rewrite orb_true_r.
    + destruct (_ || _); [done|].
      rewrite run_no_frontier; [done|].
      apply findMinEdge_None. intros g [Hf Ht]%allPossibleEdges_elem.
      unfold isFrontier.
      rewrite !bool_decide_eq_false_2; [done|..];
        intros E%elem_of_singleton; by rewrite E in *.
Qed.

Lemma animation_empty_iff_witness :
  animationSequence smallAngle rowVillages (Some 7) = [] ↔
  (length rowVillages < 2)%nat ∨ Some 7 = None ∨ Some 7 = Some 0 ∨
  ∃ i, Some 7 = Some i ∧ i ∉ ids rowVillages.
Proof.
  apply animation_empty_iff.
  apply (bool_decide_unpack _). vm_compute. reflexivity.
Defined.

(** ** The second [App] *)

(** X15. In the second [App], with villages of distinct identifiers, the
    connections are as many as the other nodes once a start node is chosen,
    none before, and [mstEdges] is [animationSequence]. *)
Theorem second_app_connections M startNode otherNodes :
  NoDup (ids (villagesOf startNode otherNodes)) →
  length (mstAndSequence M startNode otherNodes).1 =
    match startNode with
    | Some _ => length otherNodes
    | None => 0%nat
    end ∧
  (mstAndSequence M startNode otherNodes).1 =
  (mstAndSequence M startNode otherNodes).2.
Proof.
  intros Hnd. unfold mstAndSequence. destruct startNode as [s|]; [|done].
  cbn [villagesOf] in *.
  destruct (Nat.ltb_spec (length (s :: otherNodes)) 2) as [Hn|Hn].
  { simpl in *. split; [lia|done]. }
  cbn [fst snd]. rewrite sequence_mst. split; [|done].
  destruct (run_spanning (s :: otherNodes)
              (allPossibleEdges M (s :: otherNodes)) (Some (id s)))
    as (_ & Hlen & _); [simpl; lia|done|..].
  - apply complete_connected, allPossibleEdges_complete.
  - intros i [= <-]. apply elem_of_cons. by left.
  - cbn [length] in Hlen. lia.
Qed.

Lemma second_app_connections_witness :
  length (mstAndSequence smallAngle (Some (village 0 0))
            [village 1 1; village 2 2]).1 = 2%nat ∧
  (mstAndSequence smallAngle (Some (village 0 0))
     [village 1 1; village 2 2]).1 =
  (mstAndSequence smallAngle (Some (village 0 0))
     [village 1 1; village 2 2]).2.
Proof.
  apply (second_app_connections smallAngle (Some (village 0 0))
           [village 1 1; village 2 2]).
  apply (bool_decide_unpack _). vm_compute. reflexivity.
Defined.

(** The fallback of [edge.distance || edge.weight] is the distance itself on
    a candidate edge. *)
Lemma distanceOr_candidate M villages g :
  g ∈ allPossibleEdges M villages →
  distanceOr (weight g) g = weight g.
Proof.
  intros (l0 & v1 & l1 & v2 & l2 & _ & ->)%allPossibleEdges_built.
  unfold distanceOr. cbn [distance weight]. by destruct (truthy _).
Qed.

(** X16. In the second [App], one more animation step adds the weight of
    the edge it reveals to the total length, whatever that weight is. *)
Theorem total_length_step M startNode otherNodes animationStep g :
  (mstAndSequence M startNode otherNodes).2 !! animationStep = Some g →
  totalLength
    (edgesToDraw (mstAndSequence M startNode otherNodes).2
       (S animationStep)) =
  (totalLength
     (edgesToDraw (mstAndSequence M startNode otherNodes).2 animationStep)
   + weight g)%float.
Proof.
  intros Hg. unfold edgesToDraw, totalLength.
  rewrite (take_S_r _ _ _ Hg), fold_left_app. cbn [fold_left].
  rewrite (distanceOr_candidate M (villagesOf startNode otherNodes)); [done|].
  apply mstAndSequence_sub. by eapply list_elem_of_lookup_2.
Qed.

Lemma total_length_step_witness :
  totalLength
    (edgesToDraw (mstAndSequence smallAngle (Some (village 0 0))
                    [village 1 1; village 2 2]).2 2) =
  (totalLength
     (edgesToDraw (mstAndSequence smallAngle (Some (village 0 0))
                     [village 1 1; village 2 2]).2 1)
   + weight {| from := 1; to := 2;
               weight := haversineDistance smallAngle 0 1 0 2;
               distance := Some (haversineDistance smallAngle 0 1 0 2) |})%float.
Proof.
  apply (total_length_step smallAngle (Some (village 0 0))
           [village 1 1; village 2 2] 1).
  vm_compute. reflexivity.
Defined.

(** ** Keys of the polylines *)

(** A run never returns an edge twice. *)
Lemma run_nodup villages allEdges startNodeId :
  NoDup (sequence (runPrimsAlgorithm villages allEdges startNodeId)).
Proof.
  rewrite sequence_mst.
  destruct villages as [|v0 rest] eqn:E; [apply NoDup_nil_2|].
  rewrite <- E.
  destruct (run_cons villages allEdges v0 rest startNodeId E)
    as (-> & I & _).
  apply (inv_nodup _ _ _ I).
Qed.

(** X17. Over villages of distinct identifiers, the polylines of the first
    [App] have distinct keys: no two of the edges to draw have the same
    [from] and the same [to]. *)
Theorem polyline_keys_distinct M villages startNodeId animationStep :
  NoDup (ids villages) →
  NoDup ((λ edge, (from edge, to edge)) <$>
         edgesToDraw (animationSequence M villages startNodeId)
           animationStep).
Proof.
  intros Hnd. unfold edgesToDraw.
  apply NoDup_fmap_2_strong.
  - intros g1 g2 H1%subseteq_take%animationSequence_sub
      H2%subseteq_take%animationSequence_sub [= Hf Ht].
    apply (candidate_same_pair M villages g1 g2 (from g1) (to g1) Hnd H1 H2);
      unfold joins; [by left|left; by split].
  - eapply sublist_NoDup; [|apply sublist_take].
    unfold animationSequence. destruct (_ || _); [apply NoDup_nil_2|].
    apply run_nodup.
Qed.

Lemma polyline_keys_distinct_witness :
  NoDup ((λ edge, (from edge, to edge)) <$>
         edgesToDraw (animationSequence smallAngle rowVillages (Some 2)) 2).
Proof.
  apply polyline_keys_distinct.
  apply (bool_decide_unpack _). vm_compute. reflexivity.
Defined.

(** ** Selections *)

Section Selections.
Context (parseFloat : String.string → float).

Lemma select_other_fold locations otherNodes :
  fold_left (handleSelectOtherNode parseFloat) locations otherNodes =
  otherNodes ++
  (newNode parseFloat <$> take (4 - length otherNodes) locations).
Proof.
  revert otherNodes.
  induction locations as [|location rest IH]; intros otherNodes.
  - by rewrite take_nil, app_nil_r.
  - cbn [fold_left]. rewrite IH. unfold handleSelectOtherNode.
    destruct (Nat.leb_spec 4 (length otherNodes)) as [Hfull|Hroom].
    + by replace (4 - length otherNodes)%nat with 0%nat by lia.
    + rewrite length_app. cbn [length].
      replace (4 - length otherNodes)%nat
        with (S (4 - (length otherNodes + 1))) by lia.
      cbn [take fmap list_fmap]. by rewrite <- app_assoc.
Qed.

Lemma select_search_fold locations searchOtherNodes :
  fold_left (handleSelectSearchNode parseFloat) locations searchOtherNodes =
  searchOtherNodes ++
  (newNode parseFloat <$> take (5 - length searchOtherNodes) locations).
Proof.
  revert searchOtherNodes.
  induction locations as [|location rest IH]; intros searchOtherNodes.
  - by rewrite take_nil, app_nil_r.
  - cbn [fold_left]. rewrite IH. unfold handleSelectSearchNode.
    destruct (Nat.leb_spec 5 (length searchOtherNodes)) as [Hfull|Hroom].
    + by replace (5 - length searchOtherNodes)%nat with 0%nat by lia.
    + rewrite length_app. cbn [length].
      replace (5 - length searchOtherNodes)%nat
        with (S (5 - (length searchOtherNodes + 1))) by lia.
      cbn [take fmap list_fmap]. by rewrite <- app_assoc.
Qed.

End Selections.

(** A run accepts fewer edges than there are villages. *)
Lemma accepted_bound_run villages allEdges startNodeId :
  (length (mst (runPrimsAlgorithm villages allEdges startNodeId))
   ≤ length villages - 1)%nat.
Proof.
  destruct villages as [|v0 rest] eqn:E; [done|]. rewrite <- E.
  destruct (run_cons villages allEdges v0 rest startNodeId E) as (-> & I & _).
  pose proof (accepted_bound villages allEdges
                (startingPoint v0 startNodeId)) as Hb.
  rewrite (inv_size _ _ _ I) in Hb. cbn [mst].
  assert (villages ≠ []) as Hne by (by rewrite E). specialize (Hb Hne). lia.
Qed.

(** X18. Whatever is selected, and however often, the first four selections
    of the second [App] become its other nodes, in order, and the first five
    of the first [App] its search nodes; what is selected after them changes
    nothing.  The second [App] so never holds more than five villages, ten
    candidate edges and four connections. *)
Theorem selections_capped parseFloat M locations startNode :
  let otherNodes :=
    fold_left (handleSelectOtherNode parseFloat) locations [] in
  otherNodes = (newNode parseFloat <$> take 4 locations) ∧
  fold_left (handleSelectSearchNode parseFloat) locations [] =
    (newNode parseFloat <$> take 5 locations) ∧
  (length (villagesOf startNode otherNodes) ≤ 5)%nat ∧
  (length (allPossibleEdges M (villagesOf startNode otherNodes)) ≤ 10)%nat ∧
  (length (mstAndSequence M startNode otherNodes).1 ≤ 4)%nat.
Proof.
  intros otherNodes.
  assert (otherNodes = (newNode parseFloat <$> take 4 locations)) as Hother
    by (unfold otherNodes; by rewrite select_other_fold).
  assert (length otherNodes ≤ 4)%nat as Hcap
    by (rewrite Hother, length_fmap, length_take; lia).
  assert (length (villagesOf startNode otherNodes) ≤ 5)%nat as Hfive
    by (destruct startNode; simpl; lia).
  split_and!; [done|by rewrite select_search_fold|done|..].
  - pose proof (allPossibleEdges_length M (villagesOf startNode otherNodes)).
    nia.
  - unfold mstAndSequence. destruct startNode as [s|]; [|simpl; lia].
    destruct (_ <? _)%nat; [simpl; lia|]. cbn [fst].
    pose proof (accepted_bound_run (villagesOf (Some s) otherNodes)
                  (allPossibleEdges M (villagesOf (Some s) otherNodes))
                  (Some (id s))).
    lia.
Qed.

(** ** The start button *)

(** X19. The start button alerts, and clears the villages and the start,
    exactly when it is disabled or the start selected in the current mode
    is the identifier [0]: the button is enabled on a start that is not
    [null], the handler wants a truthy one. *)
Theorem start_button_alert st :
  ((FirstApp.handleStartAlgorithm st).2 = true ↔
   FirstApp.canStart st = false ∨ FirstApp.selectedStart st = Some 0) ∧
  ((FirstApp.handleStartAlgorithm st).2 = true →
   FirstApp.villages (FirstApp.handleStartAlgorithm st).1 = [] ∧
   FirstApp.startNodeId (FirstApp.handleStartAlgorithm st).1 = None).
Proof.
  unfold FirstApp.handleStartAlgorithm, FirstApp.canStart,
    FirstApp.selectedStart.
  destruct st as [m sn ss cd cs vs s k p].
  cbn [FirstApp.mode FirstApp.searchOtherNodes FirstApp.searchStartNodeId
       FirstApp.csvData FirstApp.csvStartNodeId].
  generalize (0 <? length sn)%nat, (0 <? length cd)%nat. intros b1 b2.
  assert (∀ i, i ≠ 0 → (i =? 0) = false) as Hnz
    by (intros i ?; by apply Z.eqb_neq).
  assert (bool_decide (FirstApp.search = FirstApp.csv) = false) as E1
    by (by apply bool_decide_eq_false_2).
  assert (bool_decide (FirstApp.csv = FirstApp.search) = false) as E2
    by (by apply bool_decide_eq_false_2).
  assert (∀ m : FirstApp.Mode, bool_decide (m = m) = true) as E3
    by (intros ?; by apply bool_decide_eq_true_2).
  assert (∀ i : Z, bool_decide (Some i ≠ None) = true) as E4
    by (intros ?; by apply bool_decide_eq_true_2).
  assert (bool_decide (@None Z ≠ None) = false) as E5
    by (apply bool_decide_eq_false_2; intros H; by apply H).
  destruct m, b1, b2, ss as [i|], cs as [j|];
    try destruct (decide (i = 0)) as [->|?];
    try destruct (decide (j = 0)) as [->|?];
    rewrite ?E1, ?E2, ?E3, ?E4, ?E5; cbn; rewrite ?Hnz by done; cbn;
    repeat (split || intros [?|?] || intros ?); try congruence;
    (by left) || (by right) || idtac.
Qed.

(** A start that does not alert leaves villages and a truthy start. *)
Lemma start_accepted st :
  (FirstApp.handleStartAlgorithm st).2 = false →
  FirstApp.villages (FirstApp.handleStartAlgorithm st).1 ≠ [] ∧
  falsyId (FirstApp.startNodeId (FirstApp.handleStartAlgorithm st).1)
  = false ∧
  FirstApp.animationStep (FirstApp.handleStartAlgorithm st).1 = 0%nat ∧
  FirstApp.isPlaying (FirstApp.handleStartAlgorithm st).1 = false.
Proof.
  unfold FirstApp.handleStartAlgorithm.
  destruct (bool_decide (FirstApp.mode st = FirstApp.csv) && _ && _)
    eqn:Hcsv.
  - intros _. apply andb_prop in Hcsv as [[_ Hlen]%andb_prop Hid].
    apply negb_true_iff in Hid.
    cbn [fst FirstApp.villages FirstApp.startNodeId FirstApp.animationStep
         FirstApp.isPlaying].
    split; [|done].
    apply Nat.ltb_lt in Hlen. intros E. rewrite E in Hlen. simpl in Hlen. lia.
  - destruct (bool_decide (FirstApp.mode st = FirstApp.search) && _ && _)
      eqn:Hsearch; [|by cbn].
    intros _. apply andb_prop in Hsearch as [[_ Hlen]%andb_prop Hid].
    apply negb_true_iff in Hid.
    cbn [fst FirstApp.villages FirstApp.startNodeId FirstApp.animationStep
         FirstApp.isPlaying].
    split; [|done].
    apply Nat.ltb_lt in Hlen. intros E. rewrite E in Hlen. simpl in Hlen. lia.
Qed.

(** X20. After a start that does not alert, over villages of distinct
    identifiers with the start among them, the animation is at step [0],
    paused, and has one connection less than there are villages. *)
Theorem started_run_length M st :
  (FirstApp.handleStartAlgorithm st).2 = false →
  NoDup (ids (FirstApp.villages (FirstApp.handleStartAlgorithm st).1)) →
  (∀ i, FirstApp.startNodeId (FirstApp.handleStartAlgorithm st).1 = Some i →
        i ∈ ids (FirstApp.villages (FirstApp.handleStartAlgorithm st).1)) →
  S (length (animationSequence M
               (FirstApp.villages (FirstApp.handleStartAlgorithm st).1)
               (FirstApp.startNodeId (FirstApp.handleStartAlgorithm st).1)))
  = length (FirstApp.villages (FirstApp.handleStartAlgorithm st).1) ∧
  FirstApp.animationStep (FirstApp.handleStartAlgorithm st).1 = 0%nat ∧
  FirstApp.isPlaying (FirstApp.handleStartAlgorithm st).1 = false.
Proof.
  intros (Hne & Hid & Hstep & Hplay)%start_accepted Hnd Hin.
  split_and!; [|done..].
  destruct (FirstApp.startNodeId _) as [i|]; [|done].
  apply Z.eqb_neq in Hid.
  destruct (Nat.lt_ge_cases
              (length (FirstApp.villages (FirstApp.handleStartAlgorithm st).1))
              2) as [Hn|Hn].
  - unfold animationSequence. rewrite (proj2 (Nat.ltb_lt _ _) Hn).
    destruct (FirstApp.villages _) as [|v [|w l]]; [done|done|].
    simpl in Hn. lia.
  - apply animation_length_core; auto.
Qed.

Lemma started_run_length_witness :
  let st := {| FirstApp.mode := FirstApp.search;
               FirstApp.searchOtherNodes := rowVillages;
               FirstApp.searchStartNodeId := Some 3;
               FirstApp.csvData := [];
               FirstApp.csvStartNodeId := None;
               FirstApp.villages := [];
               FirstApp.startNodeId := None;
               FirstApp.animationStep := 2;
               FirstApp.isPlaying := true |} in
  S (length (animationSequence smallAngle
               (FirstApp.villages (FirstApp.handleStartAlgorithm st).1)
               (FirstApp.startNodeId (FirstApp.handleStartAlgorithm st).1)))
  = length (FirstApp.villages (FirstApp.handleStartAlgorithm st).1) ∧
  FirstApp.animationStep (FirstApp.handleStartAlgorithm st).1 = 0%nat ∧
  FirstApp.isPlaying (FirstApp.handleStartAlgorithm st).1 = false.
Proof.
  intros st. apply (started_run_length smallAngle st).
  - vm_compute. reflexivity.
  - apply (bool_decide_unpack _). vm_compute. reflexivity.
  - intros i Hi. vm_compute in Hi. injection Hi as <-.
    apply (bool_decide_unpack _). vm_compute. reflexivity.
Defined.

(** ** Coordinates that are not numbers *)

Section NotANumber.
Local Open Scope float_scope.

Lemma sub_nan_l y : nan - y = nan.
Proof.
  apply Prim2SF_inj. rewrite sub_spec. change (Prim2SF nan) with S754_nan.
  reflexivity.
Qed.

Lemma sub_nan_r x : x - nan = nan.
Proof.
  apply Prim2SF_inj. rewrite sub_spec. change (Prim2SF nan) with S754_nan.
  by destruct (Prim2SF x).
Qed.

Lemma mul_nan_r x : x * nan = nan.
Proof. by rewrite mul_comm, mul_nan_l. Qed.

Lemma div_nan_l y : nan / y = nan.
Proof.
  apply Prim2SF_inj. rewrite div_spec. change (Prim2SF nan) with S754_nan.
  reflexivity.
Qed.

Lemma add_nan_l y : nan + y = nan.
Proof.
  apply Prim2SF_inj. rewrite add_spec. change (Prim2SF nan) with S754_nan.
  reflexivity.
Qed.

Lemma sqrt_nan : sqrt nan = nan.
Proof.
  apply Prim2SF_inj. rewrite sqrt_spec. change (Prim2SF nan) with S754_nan.
  reflexivity.
Qed.

End NotANumber.

(** X21. A coordinate that is NaN makes the distance NaN, given that
    [Math.sin] and [Math.atan2] return NaN on NaN, as ECMAScript has
    them. *)
Theorem haversine_nan M lat1 lon1 lat2 lon2 :
  Math_sin M nan = nan →
  Math_atan2 M nan nan = nan →
  lat1 = nan ∨ lon1 = nan ∨ lat2 = nan ∨ lon2 = nan →
  haversineDistance M lat1 lon1 lat2 lon2 = nan.
Proof.
  intros Hsin Hatan Hnan. unfold haversineDistance. cbv zeta.
  match goal with
  | |- (_ * (_ * Math_atan2 M (sqrt ?a) _))%float = _ =>
      assert (a = nan) as ->
  end.
  { destruct Hnan as [-> | [-> | [-> | ->]]];
      rewrite ?sub_nan_l, ?sub_nan_r, ?mul_nan_l, ?div_nan_l, ?Hsin,
        ?mul_nan_r, ?mul_nan_l, ?add_nan_l, ?add_nan_r; reflexivity. }
  by rewrite sub_nan_r, sqrt_nan, Hatan, !mul_nan_r.
Qed.

Lemma haversine_nan_witness :
  haversineDistance smallAngle 51.5 nan 48.75 2.25 = nan.
Proof.
  apply haversine_nan; [reflexivity|reflexivity|].
  right. left. reflexivity.
Defined.

(** ** The implicit start *)

(** The loop only appends: what a state holds stays at the front. *)
Lemma primLoop_prefix villages allEdges s :
  ∃ more,
    st_sequence (primLoop villages allEdges s) = st_sequence s ++ more.
Proof.
  destruct (primLoop_invariant villages allEdges
              (λ s', ∃ more, st_sequence s' = st_sequence s ++ more) s)
    as [H _]; [| |done].
  - intros s1 s2 [more E] (m & _ & -> & _)%loopStep_Some.
    exists (more ++ [m]). cbn [acceptEdge st_sequence].
    by rewrite E, app_assoc.
  - exists []. by rewrite app_nil_r.
Qed.

(** With a second point to reach, the first edge of a run is the one the
    scan finds from the start alone. *)
Lemma run_first_edge v0 rest allEdges startNodeId e :
  rest ≠ [] →
  findMinEdge {[ startingPoint v0 startNodeId ]} allEdges = Some e →
  ∃ more,
    sequence (runPrimsAlgorithm (v0 :: rest) allEdges startNodeId)
    = e :: more.
Proof.
  intros Hrest Hscan. cbn [runPrimsAlgorithm sequence].
  rewrite primLoop_step. unfold loopStep. cbn [initialState visited].
  rewrite bool_decide_eq_true_2, Hscan.
  - destruct (primLoop_prefix (v0 :: rest) allEdges
                (acceptEdge (initialState (startingPoint v0 startNodeId)) e))
      as [more ->].
    by exists more.
  - rewrite size_singleton. destruct rest; [done|simpl; lia].
Qed.

(** C5. On a non-empty point list an absent [startNodeId] makes the run
    start from the first point.  [visited] starts as the singleton of its
    identifier and the run is the one that identifier gives when passed
    explicitly.  So the first edge accepted, when there is a second point to
    reach, is the one the scan finds from the first point alone; the result
    is empty when that scan finds none; and every edge of [sequence] has
    exactly one endpoint among the first point and the endpoints of the
    edges before it. *)
Theorem absent_start_is_first v0 rest allEdges :
  let run := runPrimsAlgorithm (v0 :: rest) allEdges None in
  visited (initialState (startingPoint v0 None)) = {[ id v0 ]} ∧
  run = runPrimsAlgorithm (v0 :: rest) allEdges (Some (id v0)) ∧
  (∀ e, rest ≠ [] → findMinEdge {[ id v0 ]} allEdges = Some e →
        ∃ more, sequence run = e :: more) ∧
  (findMinEdge {[ id v0 ]} allEdges = None → run = emptyResult) ∧
  (∀ pre g post, sequence run = pre ++ g :: post →
        isFrontier (reached (id v0) pre) g = true).
Proof.
  intros run. split_and!; [done|done|..].
  - intros e Hrest Hscan. by apply run_first_edge.
  - intros Hscan.
    apply (run_no_frontier (v0 :: rest) allEdges (id v0) Hscan).
  - unfold run. rewrite sequence_mst.
    apply (run_grown (v0 :: rest) allEdges None v0 rest eq_refl).
Qed.

Lemma absent_start_is_first_witness :
  ∃ more,
    sequence (runPrimsAlgorithm rowVillages rowEdges None)
    = edge 1 2 5 :: more.
Proof.
  destruct (absent_start_is_first (village 1 0)
              [village 2 1; village 3 2] rowEdges) as (_ & _ & H & _).
  apply H; [done|]. vm_compute. reflexivity.
Defined.

(** ** Distances that are not numbers *)

Section Unordered.
Local Open Scope float_scope.

(** NaN is below nothing, and nothing is below it. *)
Lemma ltb_nan_r x : (x <? nan) = false.
Proof.
  rewrite FloatAxioms.ltb_spec. change (Prim2SF nan) with S754_nan.
  by destruct (Prim2SF x) as [[]|[]| |[] ? ?].
Qed.

Lemma leb_nan_l x : (nan <=? x) = false.
Proof.
  rewrite FloatAxioms.leb_spec. change (Prim2SF nan) with S754_nan.
  reflexivity.
Qed.

Lemma eqb_nan_l x : (nan =? x) = false.
Proof.
  rewrite FloatAxioms.eqb_spec. change (Prim2SF nan) with S754_nan.
  reflexivity.
Qed.

End Unordered.

(** The distance between two points near the opposite ends of a diameter,
    both in range.  With the doubles nearest to the sines and the cosine,
    [a] is rounded to [1 + 2^-52], [1 - a] is negative, its square root is
    NaN and so is the distance. *)
Example antipodal_distance_nan :
  ((175 * Math_PI / 180 / 2)%float = 0x1.86f4291ecf2f3p+0%float ∧
   (180 * Math_PI / 180 / 2)%float = 0x1.921fb54442d18p+0%float) ∧
  ∀ M : MathLibrary,
    Math_sin M 0x1.86f4291ecf2f3p+0 = 0x1.ff833f9da45f7p-1%float →
    Math_sin M 0x1.921fb54442d18p+0 = 1%float →
    Math_cos M (-0x1.86f4291ecf2f3p+0) = 0x1.65547c4694e32p-5%float →
    Math_cos M 0x1.86f4291ecf2f3p+0 = 0x1.65547c4694e32p-5%float →
    (∀ y, Math_atan2 M y nan = nan) →
    haversineDistance M (-87.5) (-180) 87.5 0 = nan.
Proof.
  split; [split; reflexivity|].
  intros M Hs1 Hs2 Hc1 Hc2 Hatan. unfold haversineDistance. cbv zeta.
  change ((87.5 - -87.5) * Math_PI / 180 / 2)%float
    with 0x1.86f4291ecf2f3p+0%float.
  change ((0 - -180) * Math_PI / 180 / 2)%float
    with 0x1.921fb54442d18p+0%float.
  change (-87.5 * Math_PI / 180)%float with (-0x1.86f4291ecf2f3p+0)%float.
  change (87.5 * Math_PI / 180)%float with 0x1.86f4291ecf2f3p+0%float.
  rewrite Hs1, Hs2, Hc1, Hc2.
  change (sqrt (1 - _))%float with nan.
  rewrite Hatan. reflexivity.
Qed.

(** A candidate list over three points whose first edge weighs NaN.  From
    point 1 the scan meets that edge first and keeps it, since no weight is
    below NaN; the second edge is one of the other two. *)
Lemma nan_edge_run v1 v2 v3 w13 w23 :
  ∃ g, (g = edge 1 3 w13 ∨ g = edge 2 3 w23) ∧
       mst (runPrimsAlgorithm [v1; v2; v3]
              [edge 1 2 nan; edge 1 3 w13; edge 2 3 w23] (Some 1))
       = [edge 1 2 nan; g].
Proof.
  set (allEdges := [edge 1 2 nan; edge 1 3 w13; edge 2 3 w23]).
  set (s0 := initialState 1).
  set (s1 := acceptEdge s0 (edge 1 2 nan)).
  assert (loopStep [v1; v2; v3] allEdges s0 = Some s1) as Step1.
  { unfold loopStep, findMinEdge, allEdges, scanEdge. cbn [fold_left].
    replace (bool_decide (size (visited s0) < 3)%nat) with true
      by (vm_compute; reflexivity).
    replace (isFrontier (visited s0) (edge 1 2 nan)) with true
      by (vm_compute; reflexivity).
    replace (isFrontier (visited s0) (edge 1 3 w13)) with true
      by (vm_compute; reflexivity).
    replace (isFrontier (visited s0) (edge 2 3 w23)) with false
      by (vm_compute; reflexivity).
    cbn [weight edge]. by rewrite ltb_nan_r. }
  assert (∀ g, (g = edge 1 3 w13 ∨ g = edge 2 3 w23) →
               loopStep [v1; v2; v3] allEdges (acceptEdge s1 g) = None)
    as Step3.
  { intros g [-> | ->]; unfold loopStep;
      replace (bool_decide (size (visited (acceptEdge s1 _)) < _)%nat)
        with false by (vm_compute; reflexivity); done. }
  assert (∃ g, (g = edge 1 3 w13 ∨ g = edge 2 3 w23) ∧
               loopStep [v1; v2; v3] allEdges s1 = Some (acceptEdge s1 g))
    as (g & Hg & Step2).
  { unfold loopStep, findMinEdge, allEdges, scanEdge. cbn [fold_left].
    replace (bool_decide (size (visited s1) < 3)%nat) with true
      by (vm_compute; reflexivity).
    replace (isFrontier (visited s1) (edge 1 2 nan)) with false
      by (vm_compute; reflexivity).
    replace (isFrontier (visited s1) (edge 1 3 w13)) with true
      by (vm_compute; reflexivity).
    replace (isFrontier (visited s1) (edge 2 3 w23)) with true
      by (vm_compute; reflexivity).
    cbn [weight edge].
    destruct (w23 <? w13)%float;
      [exists (edge 2 3 w23)|exists (edge 1 3 w13)]; auto. }
  exists g. split; [done|].
  cbn [runPrimsAlgorithm mst]. change (initialState _) with s0.
  rewrite primLoop_step, Step1, primLoop_step, Step2, primLoop_step,
    (Step3 g Hg).
  reflexivity.
Qed.

(** C1 as stated fails.  Points 1 and 2 are in range and nearly opposite on
    the globe, where the distance is NaN ([antipodal_distance_nan]); the
    distances to point 3 are finite.  The list is the complete pairwise
    list weighted by the distance and the start is point 1, yet: the NaN
    edge is accepted first, the sum of the weights of [mst] is NaN, equal to
    no total and at most none, while a spanning tree of finite weights
    exists. *)
Lemma nan_distance_not_minimal :
  let villages :=
    [ {| id := 1; lat := -87.5; lon := -180 |};
      {| id := 2; lat := 87.5; lon := 0 |};
      {| id := 3; lat := 0; lon := 0 |} ] in
  (Forall (λ v, (-90 <=? lat v)%float && (lat v <=? 90)%float
                && (-180 <=? lon v)%float && (lon v <=? 180)%float = true)
     villages ∧
   NoDup (ids villages) ∧ 1 ∈ ids villages ∧ (2 ≤ length villages)%nat) ∧
  ∀ M : MathLibrary,
    haversineDistance M (-87.5) (-180) 87.5 0 = nan →
    is_finite (haversineDistance M (-87.5) (-180) 0 0) = true →
    is_finite (haversineDistance M 87.5 0 0 0) = true →
    let allEdges := allPossibleEdges M villages in
    let tree := mst (runPrimsAlgorithm villages allEdges (Some 1)) in
    complete villages allEdges ∧
    spanningTree villages allEdges tree ∧
    (∃ g, g ∈ tree ∧ weight g = nan) ∧
    weightSum tree = nan ∧
    (∀ x, (weightSum tree =? x)%float = false ∧
          (weightSum tree <=? x)%float = false) ∧
    ∃ T, spanningTree villages allEdges T ∧
         Forall (λ g, is_finite (weight g) = true) T.
Proof.
  intros villages.
  assert (NoDup (ids villages)) as Hnd
    by (apply (bool_decide_unpack _); vm_compute; reflexivity).
  assert (1 ∈ ids villages) as Hin
    by (apply (bool_decide_unpack _); vm_compute; reflexivity).
  split.
  { split_and!; [|done|done|simpl; lia].
    repeat constructor. }
  intros M Hnan Hfin13 Hfin23 allEdges tree.
  set (w13 := haversineDistance M (-87.5) (-180) 0 0) in *.
  set (w23 := haversineDistance M 87.5 0 0 0) in *.
  assert (allEdges = [edge 1 2 nan; edge 1 3 w13; edge 2 3 w23]) as HE.
  { unfold allEdges, villages. cbn [allPossibleEdges map app id lat lon].
    by rewrite Hnan. }
  assert (complete villages allEdges) as Hcomplete
    by apply allPossibleEdges_complete.
  destruct (nan_edge_run
              {| id := 1; lat := -87.5; lon := -180 |}
              {| id := 2; lat := 87.5; lon := 0 |}
              {| id := 3; lat := 0; lon := 0 |} w13 w23)
    as (g & Hg & Htree).
  assert (tree = [edge 1 2 nan; g]) as Ht
    by (unfold tree; by rewrite HE).
  assert (weightSum tree = nan) as Hsum.
  { rewrite Ht. unfold weightSum. cbn [fold_left weight edge].
    by rewrite add_nan_r, add_nan_l. }
  split_and!.
  - done.
  - apply run_spanning; [simpl; lia|done|by apply complete_connected|].
    by intros i [= <-].
  - exists (edge 1 2 nan). split; [|done]. rewrite Ht. constructor.
  - done.
  - intros x. rewrite Hsum. split; [apply eqb_nan_l|apply leb_nan_l].
  - exists [edge 1 3 w13; edge 2 3 w23]. split; [|by repeat constructor].
    rewrite HE. split_and!.
    + apply submseteq_cons. reflexivity.
    + done.
    + assert (∀ a, a ∈ ids villages →
                   connected [edge 1 3 w13; edge 2 3 w23] a 3) as Hto3.
      { intros a Ha. unfold villages, ids in Ha. cbn [map id] in Ha.
        apply elem_of_cons in Ha as [-> | Ha];
          [|apply elem_of_cons in Ha as [-> | Ha];
            [|apply list_elem_of_singleton in Ha as ->]].
        - apply rtc_once. exists (edge 1 3 w13). split; [constructor|].
          by left.
        - apply rtc_once. exists (edge 2 3 w23).
          split; [apply elem_of_cons; right; constructor|]. by left.
        - apply rtc_refl. }
      intros a b Ha Hb.
      eapply connected_trans; [by apply Hto3|].
      by apply connected_sym, Hto3.
Qed.
